(** * Block: a pipeline stage over replicated aff3ct tasks

    Shallow embedding of [examples/pipeline/src/common/Block.cpp] and a
    verification of its construction, binding and worker-loop behaviour.

    Heap objects (tasks, buffered sockets, ring buffers) are identified by
    natural-number addresses handed out by an allocation counter.  Code that
    allocates, throws, reads the shared stop flag or calls into a buffered
    socket runs in the monad [M] below; it threads a [World] holding the heap,
    a log of the calls made, and the answers the environment (the other
    threads and the orchestrator) gives to the calls whose result this thread
    cannot determine alone.

    Sizes ([size_t]) are embedded as [N], a value of [size_t] being one up to
    [SIZE_MAX]; the code only compares them and counts up to them.  The [int]
    loop counters of the constructor count up to [INT_MAX], and stepping past
    it is undefined behaviour.  Memory is taken not to run out: no allocation
    throws [std::bad_alloc]. *)

From Stdlib Require Import String List Sorted NArith Lia Bool.
From stdpp Require Import gmap strings.
Import ListNotations.

Local Open Scope string_scope.
Local Open Scope list_scope.

(** ** The aff3ct unit of work, as far as [Block.cpp] looks at it *)

(** [std::type_index] values: the six element types of
    [aff3ct::module::type_to_string], and any other type. *)
Inductive type_index : Type :=
| ty_int8
| ty_int16
| ty_int32
| ty_int64
| ty_float
| ty_double
| ty_other (k : nat).

#[global] Instance type_index_eq_dec : EqDecision type_index.
Proof. solve_decision. Defined.

(** [aff3ct::module::type_to_string[t]]: an [unordered_map] read with
    [operator[]], which yields the empty string for a key it does not hold. *)
Definition type_to_string (t : type_index) : string :=
  match t with
  | ty_int8 => "int8"
  | ty_int16 => "int16"
  | ty_int32 => "int32"
  | ty_int64 => "int64"
  | ty_float => "float32"
  | ty_double => "float64"
  | ty_other _ => EmptyString
  end.

(** The six kinds of element a channel can carry. *)
Definition supported (t : type_index) : bool :=
  match t with
  | ty_other _ => false
  | _ => true
  end.

(** [aff3ct::module::socket_t]. *)
Inductive socket_t : Type := SIN | SIN_SOUT | SOUT.

#[global] Instance socket_t_eq_dec : EqDecision socket_t.
Proof. solve_decision. Defined.

(** [aff3ct::module::Socket]: a named, typed port of the task [sck_task].
    [sck_type] is what [Task::get_socket_type] answers for the socket. *)
Record Socket : Type := mkSocket {
  sck_task : nat;
  sck_name : string;
  sck_datatype : type_index;
  sck_n_elmts : N;
  sck_type : socket_t
}.

Definition get_datatype_string (s : Socket) : string :=
  type_to_string (sck_datatype s).

(** [aff3ct::module::Task]: [tk_id] is the identity (address) of the object. *)
Record Task : Type := mkTask {
  tk_id : nat;
  tk_name : string;
  tk_autoalloc : bool;
  tk_autoexec : bool;
  tk_fast : bool;
  tk_sockets : list Socket
}.

Definition get_socket_type (t : Task) (s : Socket) : socket_t := sck_type s.

(** ** Exceptions *)

Inductive sck_dir : Type := dir_in | dir_out.

#[global] Instance sck_dir_eq_dec : EqDecision sck_dir.
Proof. solve_decision. Defined.

(** What the thrown message says; the interpolated values are kept. *)
Inductive message : Type :=
| msg_n_threads_positive (n_threads : N)
    (* 'n_threads' has to be strictly positive ('n_threads' = ..). *)
| msg_buffer_size_ge (buffer_size n_threads : N)
    (* 'buffer_size' has to be equal or greater than 'n_threads' (..). *)
| msg_count_positive (d : sck_dir) (sck : string) (count : N)
    (* 'buffered_sockets_{in,out}.count(name)' has to be strictly positive (..). *)
| msg_datatype_equal (d : sck_dir) (sck : string) (have want : string)
    (* 'buffered_sockets_{in,out}[name]->get_socket()->get_datatype()' has to
       be equal to 'typeid(T)' (..). *)
| msg_should_not_happen.
    (* This should not happen :-(. *)

(** [aff3ct::tools::invalid_argument] and [aff3ct::tools::runtime_error],
    each with [__func__] and the message, and [std::length_error] of the
    standard library. *)
Inductive exception : Type :=
| invalid_argument (func : string) (what : message)
| runtime_error (func : string) (what : message)
| length_error (what : string).

(** The error kinds of the design, read off the exception: the class tells
    a caller error at construction; the three run-time errors of binding are
    told apart by what they report.  [LengthError] is no kind of the design:
    it is what the standard library reports for a vector that cannot be. *)
Inductive ErrorKind : Type :=
  InvalidArgument | NotFound | TypeMismatch | Unreachable | LengthError.

Definition error_kind (e : exception) : ErrorKind :=
  match e with
  | invalid_argument _ _ => InvalidArgument
  | runtime_error _ (msg_count_positive _ _ _) => NotFound
  | runtime_error _ (msg_datatype_equal _ _ _ _) => TypeMismatch
  | runtime_error _ _ => Unreachable
  | length_error _ => LengthError
  end.

(** ** Machine integers

    The data model is LP64: [size_t] has 64 bits and [int] has 32. *)
Definition SIZE_MAX : N := 18446744073709551615.     (* 2^64 - 1 *)
Definition INT_MAX : N := 2147483647.                (* 2^31 - 1 *)

(** [std::vector<std::thread>::max_size()], as libstdc++ has it: the largest
    number of handles of 8 bytes each that [PTRDIFF_MAX] bytes hold.  Whatever
    the library, it is below [SIZE_MAX]. *)
Definition threads_max_size : N := 1152921504606846975.   (* (2^63 - 1) / 8 *)

(** ** Buffered sockets (channels) *)

(** One frame of endpoint data. *)
Definition frame : Type := list Z.

(** Modelled from the spec: [NT_Buffered_Socket] / [Buffered_Socket<T>] of
    [Buffered_Socket.hpp], which is not part of the sources at hand.  A channel
    has an element type fixed at construction, a capacity, one endpoint
    storage slot per replica, and the ring buffer it moves frames through;
    binding makes an input channel use the ring of an output channel. *)
Record NT_Buffered_Socket : Type := mkBS {
  bs_datatype : type_index;
  bs_sockets : list Socket;
  bs_type : socket_t;
  bs_capacity : N;
  bs_buffer : nat
}.

(** Modelled from the spec: [get_datatype()] returns the element type tag;
    [get_socket()->get_datatype()] is the tag of the socket the channel was
    built on, which is of the same element type. *)
Definition get_datatype (c : NT_Buffered_Socket) : type_index := bs_datatype c.
Definition get_socket_datatype (c : NT_Buffered_Socket) : type_index := bs_datatype c.

(** ** The world and the monad *)

Inductive event : Type :=
| EvClone (src new : nat)                 (* Task::clone *)
| EvSetAutoalloc (t : nat) (b : bool)
| EvSetAutoexec (t : nat) (b : bool)
| EvSetFast (t : nat) (b : bool)
| EvNew (addr : nat) (T : type_index) (stype : socket_t) (size : N)
                                          (* new Buffered_Socket<T>(..) *)
| EvBind (sin sout : nat)                 (* sin->bind(sout) *)
| EvIsDone (b : bool)                     (* a read of is_done *)
| EvPop (addr : nat) (tid : N) (r : bool)
| EvExec (task : nat)
| EvPush (addr : nat) (tid : N) (r : bool)
| EvStop (addr : nat)
| EvReset (addr : nat).

Record World : Type := mkWorld {
  w_next : nat;                           (* next fresh address *)
  w_heap : gmap nat NT_Buffered_Socket;   (* the channel objects *)
  w_rings : gmap nat (list frame);        (* the ring buffers, oldest first *)
  w_log : list event;                     (* calls made so far, oldest first *)
  w_env : list bool                       (* answers still to come *)
}.

(** How a computation ends: normally, by a C++ exception, in undefined
    behaviour (an index out of range, a dangling pointer), or not yet
    ([Pending]: the environment's answers or the loop budget ran out). *)
Inductive Outcome (A : Type) : Type :=
| Ok (a : A)
| Throw (e : exception)
| Undefined
| Pending.

Arguments Ok {A} a.
Arguments Throw {A} e.
Arguments Undefined {A}.
Arguments Pending {A}.

Definition M (A : Type) : Type := World -> Outcome A * World.

Definition ret {A} (a : A) : M A := fun w => (Ok a, w).

Definition bindM {A B} (c : M A) (k : A -> M B) : M B :=
  fun w =>
    match c w with
    | (Ok a, w') => k a w'
    | (Throw e, w') => (Throw e, w')
    | (Undefined, w') => (Undefined, w')
    | (Pending, w') => (Pending, w')
    end.

Declare Scope M_scope.
Delimit Scope M_scope with M.
Notation "'let!' x ':=' c 'in' k" := (bindM c (fun x => k))
  (at level 10, x name, c at level 100, k at level 200) : M_scope.
Notation "'do!' c 'in' k" := (bindM c (fun _ => k))
  (at level 10, c at level 100, k at level 200) : M_scope.
Local Open Scope M_scope.

Definition throw {A} (e : exception) : M A := fun w => (Throw e, w).
Definition undefined {A} : M A := fun w => (Undefined, w).
Definition pending {A} : M A := fun w => (Pending, w).

Definition emit (e : event) : M unit :=
  fun w => (Ok tt, mkWorld (w_next w) (w_heap w) (w_rings w) (w_log w ++ [e]) (w_env w)).

(** A fresh address. *)
Definition fresh : M nat :=
  fun w => (Ok (w_next w),
            mkWorld (S (w_next w)) (w_heap w) (w_rings w) (w_log w) (w_env w)).

(** The next answer of the environment. *)
Definition ask : M bool :=
  fun w =>
    match w_env w with
    | [] => (Pending, w)
    | b :: env => (Ok b, mkWorld (w_next w) (w_heap w) (w_rings w) (w_log w) env)
    end.

(** [*p] for a channel pointer. *)
Definition deref (addr : nat) : M NT_Buffered_Socket :=
  fun w =>
    match w_heap w !! addr with
    | Some c => (Ok c, w)
    | None => (Undefined, w)
    end.

Definition store (addr : nat) (c : NT_Buffered_Socket) : M unit :=
  fun w => (Ok tt, mkWorld (w_next w) (<[addr := c]> (w_heap w)) (w_rings w)
                           (w_log w) (w_env w)).

Definition set_ring (addr : nat) (q : list frame) : M unit :=
  fun w => (Ok tt, mkWorld (w_next w) (w_heap w) (<[addr := q]> (w_rings w))
                           (w_log w) (w_env w)).

Definition get_ring (addr : nat) : M (list frame) :=
  fun w =>
    match w_rings w !! addr with
    | Some q => (Ok q, w)
    | None => (Undefined, w)
    end.

(** [for (i = lo; i < lo + n; i++) s = body i s]. *)
Fixpoint for_loop {S : Type} (lo n : nat) (body : nat -> S -> M S) (s : S) : M S :=
  match n with
  | O => ret s
  | Datatypes.S n' => let! s' := body lo s in for_loop (Datatypes.S lo) n' body s'
  end.

(** [for (int i = 0; i < n; i++) s = body i s] with [n] a [size_t]: [i] is
    compared at type [size_t], and for [n] above [INT_MAX] the pass for
    [i = INT_MAX] is followed by an [i++] that overflows, which is undefined
    behaviour. *)
Definition for_int {S : Type} (n : N) (body : nat -> S -> M S) (s : S) : M S :=
  if (n <=? INT_MAX)%N then for_loop 0 (N.to_nat n) body s
  else do! for_loop 0 (Datatypes.S (N.to_nat INT_MAX)) body s in undefined.

(** [std::vector<std::thread>(n)]: [n] empty thread handles, or
    [std::length_error] when [n] is above [max_size()]. *)
Definition new_threads (n : N) : M unit :=
  if (threads_max_size <? n)%N
  then throw (length_error "cannot create std::vector larger than max_size()")
  else ret tt.

(** [v[i]] on a [std::vector]: out of range is undefined behaviour. *)
Definition at_index {A} (v : list A) (i : nat) : M A :=
  match v !! i with
  | Some a => ret a
  | None => undefined
  end.

(** ** [std::map<std::string, std::unique_ptr<NT_Buffered_Socket>>]

    Kept as an association list in key order, which is the order a
    range-based [for] visits it in; the values are channel addresses. *)
Definition smap : Type := list (string * nat).

Fixpoint smap_find (k : string) (m : smap) : option nat :=
  match m with
  | [] => None
  | (k', v) :: m' => if String.eqb k k' then Some v else smap_find k m'
  end.

(** [m.count(k)] *)
Definition smap_count (k : string) (m : smap) : N :=
  match smap_find k m with
  | Some _ => 1%N
  | None => 0%N
  end.

(** [m[k]] read as a pointer that is then followed: for a key the map does
    not hold, [operator[]] files a null pointer, and following it is undefined
    behaviour. *)
Definition smap_at (k : string) (m : smap) : M nat :=
  match smap_find k m with
  | Some v => ret v
  | None => undefined
  end.

(** [m[k] = v] *)
Fixpoint smap_assign (k : string) (v : nat) (m : smap) : smap :=
  match m with
  | [] => [(k, v)]
  | (k', v') :: m' =>
      match String.compare k k' with
      | Lt => (k, v) :: m
      | Eq => (k, v) :: m'
      | Gt => (k', v') :: smap_assign k v m'
      end
  end.

(** ** aff3ct task operations *)

(** [Task::clone]: a copy-constructed task at a fresh address, with sockets
    of its own. *)
Definition clone_of (t : Task) (id : nat) : Task :=
  mkTask id (tk_name t) (tk_autoalloc t) (tk_autoexec t) (tk_fast t)
    (map (fun s => mkSocket id (sck_name s) (sck_datatype s)
                     (sck_n_elmts s) (sck_type s))
         (tk_sockets t)).

Definition Task_clone (t : Task) : M Task :=
  let! id := fresh in
  do! emit (EvClone (tk_id t) id) in
  ret (clone_of t id).

Definition set_autoalloc (t : Task) (b : bool) : M Task :=
  do! emit (EvSetAutoalloc (tk_id t) b) in
  ret (mkTask (tk_id t) (tk_name t) b (tk_autoexec t) (tk_fast t) (tk_sockets t)).

Definition set_autoexec (t : Task) (b : bool) : M Task :=
  do! emit (EvSetAutoexec (tk_id t) b) in
  ret (mkTask (tk_id t) (tk_name t) (tk_autoalloc t) b (tk_fast t) (tk_sockets t)).

Definition set_fast (t : Task) (b : bool) : M Task :=
  do! emit (EvSetFast (tk_id t) b) in
  ret (mkTask (tk_id t) (tk_name t) (tk_autoalloc t) (tk_autoexec t) b (tk_sockets t)).

(** Modelled from the spec: the constructor of [Buffered_Socket<T>], which
    is not part of the sources at hand.  It makes a channel of element type
    [T] and capacity [buffer_size] over the replicas' storage slots [s_vec],
    with an empty ring buffer of its own, and yields its address. *)
Definition new_Buffered_Socket (T : type_index) (s_vec : list Socket)
    (stype : socket_t) (buffer_size : N) : M nat :=
  let! ring := fresh in
  do! set_ring ring [] in
  let! addr := fresh in
  do! store addr (mkBS T s_vec stype buffer_size ring) in
  do! emit (EvNew addr T stype buffer_size) in
  ret addr.

(** [delete] of a channel: the object is gone, and a pointer to it dangles.
    What else the destructor of [Buffered_Socket<T>], which is not part of the
    sources at hand, does is left out. *)
Definition delete_Buffered_Socket (addr : nat) : M unit :=
  fun w => (Ok tt, mkWorld (w_next w) (delete addr (w_heap w)) (w_rings w)
                           (w_log w) (w_env w)).

(** [entry = std::unique_ptr<NT_Buffered_Socket>(socket)] on an entry of a
    map: the move assignment destroys the channel the entry owned before
    ([old]), if it owned one. *)
Definition unique_ptr_assign (old : option nat) : M unit :=
  match old with
  | Some addr => delete_Buffered_Socket addr
  | None => ret tt
  end.

(** ** Block *)

(** The members of [Block] but [threads]: the thread handles only matter to
    [run] and [join], which start [execute_task] once per replica and await
    its return. *)
Record Block : Type := mkBlock {
  name : string;
  n_threads : N;
  buffer_size : N;
  tasks : list Task;
  buffered_sockets_in : smap;
  buffered_sockets_out : smap
}.

(** The body of the socket loop of the constructor, for socket [s_idx]; the
    two maps under construction are the loop state. *)
Definition add_buffered_socket (task : Task) (buffer_size n_threads : N)
    (tasks : list Task) (s_idx : nat) (maps : smap * smap) : M (smap * smap) :=
  let! s_vec := for_int n_threads
                  (fun i s_vec =>
                     let! t := at_index tasks i in
                     let! s := at_index (tk_sockets t) s_idx in
                     ret (s_vec ++ [s]))
                  [] in
  let! s := at_index (tk_sockets task) s_idx in
  let sdatatype := get_datatype_string s in
  let sname := sck_name s in
  let stype := get_socket_type task s in
  let add_socket (socket : nat) : M (smap * smap) :=
    if decide (stype = SIN)
    then do! unique_ptr_assign (smap_find sname (fst maps)) in
         ret (smap_assign sname socket (fst maps), snd maps)
    else do! unique_ptr_assign (smap_find sname (snd maps)) in
         ret (fst maps, smap_assign sname socket (snd maps)) in
  if String.eqb sdatatype "int8" then
    let! c := new_Buffered_Socket ty_int8 s_vec stype buffer_size in add_socket c
  else if String.eqb sdatatype "int16" then
    let! c := new_Buffered_Socket ty_int16 s_vec stype buffer_size in add_socket c
  else if String.eqb sdatatype "int32" then
    let! c := new_Buffered_Socket ty_int32 s_vec stype buffer_size in add_socket c
  else if String.eqb sdatatype "int64" then
    let! c := new_Buffered_Socket ty_int64 s_vec stype buffer_size in add_socket c
  else if String.eqb sdatatype "float32" then
    let! c := new_Buffered_Socket ty_float s_vec stype buffer_size in add_socket c
  else if String.eqb sdatatype "float64" then
    let! c := new_Buffered_Socket ty_double s_vec stype buffer_size in add_socket c
  else ret maps.

(** [Block::Block(task, buffer_size, n_threads)].  Of the member
    initialisers only [threads(n_threads)] can fail; it runs before the body
    of the constructor, so before the two tests. *)
Definition Block_ctor (task : Task) (buffer_size n_threads : N) : M Block :=
  do! new_threads n_threads in
  if (n_threads =? 0)%N then
    throw (invalid_argument "Block" (msg_n_threads_positive n_threads))
  else if (buffer_size <? n_threads)%N then
    throw (invalid_argument "Block" (msg_buffer_size_ge buffer_size n_threads))
  else
    let! task_cpy := Task_clone task in
    let! task_cpy := set_autoalloc task_cpy false in
    let! task_cpy := set_autoexec task_cpy false in
    let! task_cpy := set_fast task_cpy false in
    let! tasks := for_int n_threads
                    (fun _ tasks =>
                       let! t := Task_clone task_cpy in ret (tasks ++ [t]))
                    [] in
    let! maps := for_loop 0 (length (tk_sockets task))
                   (add_buffered_socket task buffer_size n_threads tasks)
                   ([], []) in
    ret (mkBlock (tk_name task) n_threads buffer_size tasks (fst maps) (snd maps)).

(** The map of the block that holds the channels of direction [d]. *)
Definition channels (d : sck_dir) (b : Block) : smap :=
  match d with
  | dir_in => buffered_sockets_in b
  | dir_out => buffered_sockets_out b
  end.

(** The map the constructor files a socket of type [stype] in. *)
Definition dir_of (stype : socket_t) : sck_dir :=
  if decide (stype = SIN) then dir_in else dir_out.

(** [Block::get_buffered_socket_in<T>(name)] *)
Definition get_buffered_socket_in (T : type_index) (this : Block) (name : string)
  : M nat :=
  if (0 <? smap_count name (buffered_sockets_in this))%N then
    let! addr := smap_at name (buffered_sockets_in this) in
    let! c := deref addr in
    if String.eqb (type_to_string (get_socket_datatype c)) (type_to_string T)
    then ret addr
    else throw (runtime_error "get_buffered_socket_in"
                  (msg_datatype_equal dir_in name
                     (type_to_string (get_socket_datatype c)) (type_to_string T)))
  else
    throw (runtime_error "get_buffered_socket_in"
             (msg_count_positive dir_in name
                (smap_count name (buffered_sockets_in this)))).

(** [Block::get_buffered_socket_out<T>(name)] *)
Definition get_buffered_socket_out (T : type_index) (this : Block) (name : string)
  : M nat :=
  if (0 <? smap_count name (buffered_sockets_out this))%N then
    let! addr := smap_at name (buffered_sockets_out this) in
    let! c := deref addr in
    if String.eqb (type_to_string (get_socket_datatype c)) (type_to_string T)
    then ret addr
    else throw (runtime_error "get_buffered_socket_out"
                  (msg_datatype_equal dir_out name
                     (type_to_string (get_socket_datatype c)) (type_to_string T)))
  else
    throw (runtime_error "get_buffered_socket_out"
             (msg_count_positive dir_out name
                (smap_count name (buffered_sockets_out this)))).

(** Modelled from the spec: [Buffered_Socket<T>::bind], which is not part of
    the sources at hand.  It connects the input channel [sin] to read from the
    output channel [sout]: the two channels become the same physical buffer.
    The status it returns is not looked at; success is [Ok tt]. *)
Definition Buffered_Socket_bind (sin sout : nat) : M unit :=
  let! cin := deref sin in
  let! cout := deref sout in
  do! store sin (mkBS (bs_datatype cin) (bs_sockets cin) (bs_type cin)
                      (bs_capacity cin) (bs_buffer cout)) in
  emit (EvBind sin sout).

(** Modelled from the spec: [push] moves a frame of the producing replica
    into the channel and answers [false] when the channel is full. *)
Definition Buffered_Socket_push (addr : nat) (x : frame) : M bool :=
  let! c := deref addr in
  let! q := get_ring (bs_buffer c) in
  if (N.of_nat (length q) <? bs_capacity c)%N
  then do! set_ring (bs_buffer c) (q ++ [x]) in ret true
  else ret false.

(** Modelled from the spec: [pop] moves the oldest frame of the channel to
    the consuming replica and answers [false] ([None]) when there is none. *)
Definition Buffered_Socket_pop (addr : nat) : M (option frame) :=
  let! c := deref addr in
  let! q := get_ring (bs_buffer c) in
  match q with
  | [] => ret None
  | x :: q' => do! set_ring (bs_buffer c) q' in ret (Some x)
  end.

(** [Block::bind_by_type<T>(start_sck_name, dest_block, dest_sck_name)] *)
Definition bind_by_type (T : type_index) (this : Block) (start_sck_name : string)
    (dest_block : Block) (dest_sck_name : string) : M unit :=
  let! sin := get_buffered_socket_in T this start_sck_name in
  let! sout := get_buffered_socket_out T dest_block dest_sck_name in
  Buffered_Socket_bind sin sout.

(** [Block::bind(start_sck_name, dest_block, dest_sck_name)] *)
Definition bind (this : Block) (start_sck_name : string) (dest_block : Block)
    (dest_sck_name : string) : M unit :=
  if (smap_count start_sck_name (buffered_sockets_in this) =? 0)%N then
    throw (runtime_error "bind"
             (msg_count_positive dir_in start_sck_name
                (smap_count start_sck_name (buffered_sockets_in this))))
  else
    let! addr := smap_at start_sck_name (buffered_sockets_in this) in
    let! c := deref addr in
    let sin_datatype := get_datatype c in
    if decide (sin_datatype = ty_int8) then
      bind_by_type ty_int8 this start_sck_name dest_block dest_sck_name
    else if decide (sin_datatype = ty_int16) then
      bind_by_type ty_int16 this start_sck_name dest_block dest_sck_name
    else if decide (sin_datatype = ty_int32) then
      bind_by_type ty_int32 this start_sck_name dest_block dest_sck_name
    else if decide (sin_datatype = ty_int64) then
      bind_by_type ty_int64 this start_sck_name dest_block dest_sck_name
    else if decide (sin_datatype = ty_float) then
      bind_by_type ty_float this start_sck_name dest_block dest_sck_name
    else if decide (sin_datatype = ty_double) then
      bind_by_type ty_double this start_sck_name dest_block dest_sck_name
    else throw (runtime_error "bind" msg_should_not_happen).

(** ** The worker loop *)

(** A read of the shared stop flag [is_done]: the orchestrator owns it, so
    its value is an answer of the environment. *)
Definition is_done : M bool :=
  let! b := ask in
  do! emit (EvIsDone b) in
  ret b.

(** [socket->pop(tid)] and [socket->push(tid)], as the calling thread sees
    them: what they answer depends on the other threads at the channel, so it
    is an answer of the environment.  The call and its answer are recorded;
    the frames it moves are not followed here. *)
Definition pop (addr : nat) (tid : N) : M bool :=
  let! r := ask in
  do! emit (EvPop addr tid r) in
  ret r.

Definition push (addr : nat) (tid : N) : M bool :=
  let! r := ask in
  do! emit (EvPush addr tid r) in
  ret r.

Definition stop (addr : nat) : M unit := emit (EvStop addr).
Definition reset_socket (addr : nat) : M unit := emit (EvReset addr).

(** [task->exec()]: the call is recorded.  What the task computes, and an
    exception it may throw, are outside the embedding. *)
Definition exec (t : Task) : M unit := emit (EvExec (tk_id t)).

(** [while (!is_done && op) {}], for at most [fuel] rounds. *)
Fixpoint spin (fuel : nat) (op : M bool) : M unit :=
  match fuel with
  | O => pending
  | S fuel' =>
      let! done := is_done in
      if done then ret tt
      else let! r := op in
           if r then spin fuel' op else ret tt
  end.

(** [for (auto const& it : m) body(it.second)] *)
Fixpoint for_each (m : smap) (body : nat -> M unit) : M unit :=
  match m with
  | [] => ret tt
  | (_, addr) :: m' => do! body addr in for_each m' body
  end.

Inductive flow : Type := Continue | Break.

(** One pass through the body of the [while] of [execute_task]. *)
Definition iteration (fuel : nat) (this : Block) (tid : N) : M flow :=
  do! for_each (buffered_sockets_in this) (fun it => spin fuel (pop it tid)) in
  let! done := is_done in
  if done then ret Break
  else
    let! t := at_index (tasks this) (N.to_nat tid) in
    do! exec t in
    do! for_each (buffered_sockets_out this) (fun it => spin fuel (push it tid)) in
    ret Continue.

(** [while (!is_done) { .. }], for at most [fuel] passes. *)
Fixpoint main_loop (fuel : nat) (this : Block) (tid : N) : M unit :=
  match fuel with
  | O => pending
  | S fuel' =>
      let! done := is_done in
      if done then ret tt
      else let! f := iteration fuel' this tid in
           match f with
           | Break => ret tt
           | Continue => main_loop fuel' this tid
           end
  end.

(** What follows the [while] in [execute_task]. *)
Definition stop_all (this : Block) : M unit :=
  do! for_each (buffered_sockets_out this) stop in
  for_each (buffered_sockets_in this) stop.

(** [Block::execute_task(tid, is_done)] *)
Definition execute_task (fuel : nat) (this : Block) (tid : N) : M unit :=
  do! main_loop fuel this tid in
  stop_all this.

(** [Block::reset()] *)
Definition reset (this : Block) : M unit :=
  do! for_each (buffered_sockets_in this) reset_socket in
  for_each (buffered_sockets_out this) reset_socket.

(** * Vocabulary of the verification *)

(** ** The string-keyed map *)

(** Keys strictly increasing, as a [std::map] keeps them. *)
Definition smap_sorted (m : smap) : Prop :=
  Sorted (fun x y => String.compare (fst x) (fst y) = Lt) m.

(** ** Construction *)

(** The prototype: the clone of the template at address [p], with the three
    automatic behaviours switched off. *)
Definition prototype (task : Task) (p : nat) : Task :=
  mkTask p (tk_name task) false false false (tk_sockets (clone_of task p)).

Definition prototype_events (task : Task) (p : nat) : list event :=
  [EvClone (tk_id task) p; EvSetAutoalloc p false; EvSetAutoexec p false;
   EvSetFast p false].

Definition is_new (e : event) : bool :=
  match e with
  | EvNew _ _ _ _ => true
  | _ => false
  end.

(** The slots a channel for socket [s_idx] is wired to: socket [s_idx] of
    each replica, in replica order. *)
Definition slots_of (tasks : list Task) (s_idx : nat) (s_vec : list Socket) : Prop :=
  Forall2 (fun t s => tk_sockets t !! s_idx = Some s) tasks s_vec.

(** Where [add_socket] of the constructor files a channel. *)
Definition file_socket (stype : socket_t) (sname : string) (addr : nat)
    (maps : smap * smap) : smap * smap :=
  if decide (stype = SIN)
  then (smap_assign sname addr (fst maps), snd maps)
  else (fst maps, smap_assign sname addr (snd maps)).

Definition pick (d : sck_dir) (maps : smap * smap) : smap :=
  match d with
  | dir_in => fst maps
  | dir_out => snd maps
  end.

(** What a channel filed for socket [j] of the template looks like. *)
Record channel_of (bs : N) (tasks : list Task) (j : nat) (s : Socket)
    (c : NT_Buffered_Socket) : Prop := mk_channel_of {
  co_datatype : get_datatype c = sck_datatype s;
  co_capacity : bs_capacity c = bs;
  co_type : bs_type c = sck_type s;
  co_slots : slots_of tasks j (bs_sockets c)
}.

Definition is_supported_socket (s : Socket) : bool := supported (sck_datatype s).

(** Every entry of either map is the channel of a supported socket among
    the first [k] of the template. *)
Definition entries_sound (task : Task) (bs : N) (tasks : list Task)
    (k : nat) (maps : smap * smap) (w : World) : Prop :=
  forall d nm a,
    smap_find nm (pick d maps) = Some a ->
    a < w_next w /\
    exists j s c,
      j < k /\ tk_sockets task !! j = Some s /\ sck_name s = nm /\
      dir_of (sck_type s) = d /\ is_supported_socket s = true /\
      w_heap w !! a = Some c /\ channel_of bs tasks j s c.

(** Every supported socket among the first [k] has its channel. *)
Definition entries_complete (task : Task) (bs : N) (tasks : list Task)
    (k : nat) (maps : smap * smap) (w : World) : Prop :=
  forall j s,
    j < k -> tk_sockets task !! j = Some s -> is_supported_socket s = true ->
    exists a c,
      smap_find (sck_name s) (pick (dir_of (sck_type s)) maps) = Some a /\
      w_heap w !! a = Some c /\ channel_of bs tasks j s c.

(** The number of channels filed after [k] passes. *)
Definition entries_counted (task : Task) (k : nat) (maps : smap * smap) : Prop :=
  length (fst maps) + length (snd maps)
  = length (List.filter is_supported_socket (take k (tk_sockets task))).

(** The loop only allocates and only logs channel constructions. *)
Definition world_grows (task : Task) (w_start : World) (k : nat) (w : World)
  : Prop :=
  exists news,
    w_log w = w_log w_start ++ news /\
    forallb is_new news = true /\
    length news = length (List.filter is_supported_socket (take k (tk_sockets task))) /\
    w_env w = w_env w_start /\
    w_next w_start <= w_next w /\
    (forall a, a < w_next w_start -> w_heap w !! a = w_heap w_start !! a).

(** The world once the entry that held [old] has been assigned to. *)
Definition released (old : option nat) (w : World) : World :=
  match old with
  | Some addr =>
      mkWorld (w_next w) (delete addr (w_heap w)) (w_rings w) (w_log w) (w_env w)
  | None => w
  end.

(** The channels filed in the maps are at addresses allocated since [w0],
    different entries at different addresses, and what [w0] held below its
    allocation counter is as it was. *)
Definition fresh_channels (w0 : World) (maps : smap * smap) (w : World) : Prop :=
  (forall d nm a, smap_find nm (pick d maps) = Some a -> w_next w0 <= a < w_next w)
  /\ (forall d nm d' nm' a,
         smap_find nm (pick d maps) = Some a ->
         smap_find nm' (pick d' maps) = Some a -> d = d' /\ nm = nm')
  /\ w_next w0 <= w_next w
  /\ (forall a, a < w_next w0 ->
        w_heap w !! a = w_heap w0 !! a /\ w_rings w !! a = w_rings w0 !! a).

(** The invariant of the socket loop of the constructor, after [k] passes. *)
Definition socket_inv (task : Task) (bs : N) (tasks : list Task) (w_start : World)
    (k : nat) (maps : smap * smap) (w : World) : Prop :=
  entries_sound task bs tasks k maps w /\ world_grows task w_start k w /\
  (NoDup (map sck_name (tk_sockets task)) ->
   entries_complete task bs tasks k maps w /\ entries_counted task k maps) /\
  fresh_channels w_start maps w.

(** The replicas a block built at allocation counter [p] holds. *)
Definition replicas (task : Task) (p : nat) (n_threads : N) : list Task :=
  map (clone_of (prototype task p)) (seq (Datatypes.S p) (N.to_nat n_threads)).

(** What a successful construction leaves behind. *)
Record ctor_post (task : Task) (bs nt : N) (w : World) (b : Block) (w' : World)
  : Prop := mk_ctor_post {
  cp_name : name b = tk_name task;
  cp_n_threads : n_threads b = nt;
  cp_buffer_size : buffer_size b = bs;
  cp_tasks : tasks b = replicas task (w_next w) nt;
  cp_log :
    exists news,
      w_log w' = w_log w ++ prototype_events task (w_next w)
                 ++ map (EvClone (w_next w)) (seq (Datatypes.S (w_next w)) (N.to_nat nt))
                 ++ news
      /\ forallb is_new news = true
      /\ length news = length (List.filter is_supported_socket (tk_sockets task));
  cp_env : w_env w' = w_env w;
  cp_heap : forall a, a < w_next w -> w_heap w' !! a = w_heap w !! a;
  cp_sound :
    entries_sound task bs (tasks b) (length (tk_sockets task))
      (buffered_sockets_in b, buffered_sockets_out b) w';
  cp_complete :
    NoDup (map sck_name (tk_sockets task)) ->
    entries_complete task bs (tasks b) (length (tk_sockets task))
      (buffered_sockets_in b, buffered_sockets_out b) w'
    /\ entries_counted task (length (tk_sockets task))
         (buffered_sockets_in b, buffered_sockets_out b)
}.

(** The reading of the validation under which the two tests decide every
    call: for every pair of [size_t] values, construction succeeds when
    [n_threads >= 1] and [buffer_size >= n_threads], and throws the
    InvalidArgument kind, the world untouched, when [n_threads = 0] or
    [buffer_size < n_threads]. *)
Definition validates_every_pair : Prop :=
  forall (task : Task) (bs nt : N) (w : World),
    (bs <= SIZE_MAX)%N -> (nt <= SIZE_MAX)%N ->
    ((1 <= nt)%N -> (nt <= bs)%N ->
     exists b w', Block_ctor task bs nt w = (Ok b, w'))
    /\ (nt = 0%N \/ (bs < nt)%N ->
        exists e, Block_ctor task bs nt w = (Throw e, w)
                  /\ error_kind e = InvalidArgument).

(** ** Examples *)

(** A small pipeline to run the definitions on: an encoder stage with an
    [int32] input, an [int32] output and a port of a type outside the six
    supported ones, and a modulator stage reading [int32] and writing
    [float64]. *)
Definition ex_world : World := mkWorld 10 ∅ ∅ [] [].

Definition ex_encoder : Task :=
  mkTask 1 "encoder" true true true
    [mkSocket 1 "U_K" ty_int32 4 SIN;
     mkSocket 1 "X_N" ty_int32 8 SOUT;
     mkSocket 1 "aux" (ty_other 0) 8 SOUT].

Definition ex_modem : Task :=
  mkTask 2 "modem" true true true
    [mkSocket 2 "X_N1" ty_int32 8 SIN;
     mkSocket 2 "X_N2" ty_double 8 SOUT].

(** The concrete blocks of the small pipeline. *)
Definition ex_no_block : Block := mkBlock EmptyString 0 0 [] [] [].

Definition ex_enc_block : Block :=
  Eval vm_compute in
    match Block_ctor ex_encoder 2 2 ex_world with
    | (Ok b, _) => b
    | _ => ex_no_block
    end.

Definition ex_world1 : World := snd (Block_ctor ex_encoder 2 2 ex_world).

Definition ex_mod_block : Block :=
  Eval vm_compute in
    match Block_ctor ex_modem 2 2 ex_world1 with
    | (Ok b, _) => b
    | _ => ex_no_block
    end.

Definition ex_wired : World := snd (Block_ctor ex_modem 2 2 ex_world1).

Definition ex_no_channel : NT_Buffered_Socket := mkBS (ty_other 0) [] SIN 0 0.

(** The input channel [X_N1] of the modulator stage and the output channel
    [X_N] of the encoder stage. *)
Definition ex_mod_in : NT_Buffered_Socket :=
  Eval vm_compute in default ex_no_channel (w_heap ex_wired !! 21).

Definition ex_enc_out : NT_Buffered_Socket :=
  Eval vm_compute in default ex_no_channel (w_heap ex_wired !! 16).

(** A block whose input channel carries a type outside the six: no
    constructor call yields it; it stands for a broken invariant. *)
Definition ex_odd_block : Block := mkBlock "odd" 1 1 [] [("p", 0)] [].
Definition ex_odd_world : World :=
  mkWorld 2 {[0 := mkBS (ty_other 7) [] SIN 1 1]} {[1 := []]} [] [].

(** ** Binding *)

(** The reading of [bind] under which the first name is an output of the
    calling block and the second an input of the destination block: whenever
    those two channels exist with one supported element type, the call
    succeeds and leaves the destination's input channel reading from the
    caller's output channel. *)
Definition bind_output_to_input : Prop :=
  forall (this dest : Block) (output_name input_name : string) (w : World)
         (aout ain : nat) (cout cin : NT_Buffered_Socket),
    smap_find output_name (buffered_sockets_out this) = Some aout ->
    w_heap w !! aout = Some cout ->
    smap_find input_name (buffered_sockets_in dest) = Some ain ->
    w_heap w !! ain = Some cin ->
    supported (get_datatype cout) = true ->
    get_datatype cout = get_datatype cin ->
    exists w' cin',
      bind this output_name dest input_name w = (Ok tt, w')
      /\ w_heap w' !! ain = Some cin'
      /\ bs_buffer cin' = bs_buffer cout.

(** The channel [sin] as [sin->bind(sout)] leaves it. *)
Definition bound_to (cin cout : NT_Buffered_Socket) : NT_Buffered_Socket :=
  mkBS (bs_datatype cin) (bs_sockets cin) (bs_type cin) (bs_capacity cin)
       (bs_buffer cout).

(** ** The worker loop *)

(** [steps w tr w']: from [w] to [w'] the calls [tr] were made, and neither
    the allocation counter nor the heap changed. *)
Definition steps (w : World) (tr : list event) (w' : World) : Prop :=
  w_log w' = w_log w ++ tr /\ w_next w' = w_next w
  /\ w_heap w' = w_heap w /\ w_rings w' = w_rings w.

Definition is_exec (e : event) : bool :=
  match e with
  | EvExec _ => true
  | _ => false
  end.

Definition is_stop (e : event) : bool :=
  match e with
  | EvStop _ => true
  | _ => false
  end.

(** The calls of the input-polling phase of thread [tid]: reads of the stop
    flag and pops at input channels of the block. *)
Definition pop_phase (this : Block) (tid : N) (e : event) : bool :=
  match e with
  | EvIsDone _ => true
  | EvPop a t _ =>
      (t =? tid)%N && existsb (Nat.eqb a) (map snd (buffered_sockets_in this))
  | _ => false
  end.

(** The calls of the output phase of thread [tid]: reads of the stop flag
    and pushes at output channels of the block. *)
Definition push_phase (this : Block) (tid : N) (e : event) : bool :=
  match e with
  | EvIsDone _ => true
  | EvPush a t _ =>
      (t =? tid)%N && existsb (Nat.eqb a) (map snd (buffered_sockets_out this))
  | _ => false
  end.

(** The calls that follow the loop: outputs stopped, then inputs. *)
Definition stop_calls (this : Block) : list event :=
  map EvStop (map snd (buffered_sockets_out this))
  ++ map EvStop (map snd (buffered_sockets_in this)).

(** The shape of one pass of the loop body. *)
Definition iteration_shape (this : Block) (tid : N) (w : World) (f : flow)
    (w' : World) (pops : list event) (done : bool) : Prop :=
  forallb (pop_phase this tid) pops = true
  /\ if done
     then f = Break /\ steps w (pops ++ [EvIsDone true]) w'
     else f = Continue
          /\ exists t pushes,
               tasks this !! N.to_nat tid = Some t
               /\ forallb (push_phase this tid) pushes = true
               /\ steps w (pops ++ [EvIsDone false; EvExec (tk_id t)] ++ pushes) w'.

(** A world for thread 0 of the encoder stage, at the head of its loop: the
    stop flag is clear while the thread enters the loop, polls its input once
    (nothing more to pop), checks the flag, runs its task and polls its output
    once (nothing more to push); it is set when the thread comes back to the
    head of the loop. *)
Definition ex_loop_world : World :=
  mkWorld (w_next ex_wired) (w_heap ex_wired) (w_rings ex_wired) []
          [false; false; false; false; false; false; true].

(** The same, with the flag raised while the thread polls its input. *)
Definition ex_loop_world_stopped : World :=
  mkWorld (w_next ex_wired) (w_heap ex_wired) (w_rings ex_wired) []
          [false; false; false; true].

(** The two worlds once the loop is entered, where its body starts. *)
Definition ex_thread_world : World := snd (is_done ex_loop_world).
Definition ex_thread_world_stopped : World := snd (is_done ex_loop_world_stopped).

(** The worlds one pass of the loop body, and the whole thread, end in. *)
Definition ex_pass : World := snd (iteration 3 ex_enc_block 0 ex_thread_world).

Definition ex_pass_stopped : World :=
  snd (iteration 3 ex_enc_block 0 ex_thread_world_stopped).

Definition ex_run : World := snd (execute_task 4 ex_enc_block 0 ex_loop_world).

(** ** Further vocabulary: construction *)

(** The world the socket loop of the constructor starts in: the prototype
    and the replicas are cloned, nothing else has happened. *)
Definition after_clones (task : Task) (nt : N) (w : World) : World :=
  mkWorld (Datatypes.S (w_next w) + N.to_nat nt) (w_heap w) (w_rings w)
          ((w_log w ++ prototype_events task (w_next w))
           ++ map (EvClone (w_next w)) (seq (Datatypes.S (w_next w)) (N.to_nat nt)))
          (w_env w).

(** The world after one [new Buffered_Socket<T>(s_vec, stype, size)]. *)
Definition with_channel (w : World) (T : type_index) (s_vec : list Socket)
    (stype : socket_t) (size : N) : World :=
  mkWorld (Datatypes.S (Datatypes.S (w_next w)))
          (<[Datatypes.S (w_next w) := mkBS T s_vec stype size (w_next w)]> (w_heap w))
          (<[w_next w := []]> (w_rings w))
          (w_log w ++ [EvNew (Datatypes.S (w_next w)) T stype size])
          (w_env w).

(** Socket [s] is one the constructor files a channel for under name [nm]
    in the map of direction [d]. *)
Definition filed_by (d : sck_dir) (nm : string) (s : Socket) : bool :=
  is_supported_socket s
  && bool_decide (dir_of (sck_type s) = d)
  && String.eqb (sck_name s) nm.

(** After [k] passes of the socket loop, a name is filed in a map exactly
    when some socket among the first [k] is filed under it there, and it then
    leads to the channel made for the last such socket. *)
Definition last_filed (task : Task) (bs : N) (tasks : list Task)
    (k : nat) (maps : smap * smap) (w : World) : Prop :=
  forall d nm,
    match smap_find nm (pick d maps) with
    | Some a =>
        a < w_next w /\
        exists j s c,
          j < k /\ tk_sockets task !! j = Some s /\ filed_by d nm s = true /\
          (forall j' s', j < j' -> j' < k -> tk_sockets task !! j' = Some s' ->
                         filed_by d nm s' = false) /\
          w_heap w !! a = Some c /\ channel_of bs tasks j s c
    | None =>
        forall j s, j < k -> tk_sockets task !! j = Some s -> filed_by d nm s = false
    end.

(** Every channel made since [w0] and still alive is held by an entry of
    the maps. *)
Definition all_owned (w0 : World) (maps : smap * smap) (w : World) : Prop :=
  forall a c,
    w_next w0 <= a -> w_heap w !! a = Some c ->
    exists d nm, smap_find nm (pick d maps) = Some a.

(** A template with two input sockets of one name. *)
Definition ex_twin : Task :=
  mkTask 3 "twin" true true true
    [mkSocket 3 "X" ty_int32 4 SIN;
     mkSocket 3 "X" ty_double 4 SIN;
     mkSocket 3 "Y" ty_int8 4 SOUT].

Definition ex_twin_block : Block :=
  Eval vm_compute in
    match Block_ctor ex_twin 1 1 ex_world with
    | (Ok b, _) => b
    | _ => ex_no_block
    end.

Definition ex_twin_world : World := snd (Block_ctor ex_twin 1 1 ex_world).

(** ** Further vocabulary: binding *)

(** What [bind] comes to, case by case: the two lookups, the two pointers
    followed, the dispatch and the comparison of element types. *)
Definition bind_table (this : Block) (start : string) (dest : Block)
    (dname : string) (w : World) : Outcome unit * World :=
  match smap_find start (buffered_sockets_in this) with
  | None => (Throw (runtime_error "bind" (msg_count_positive dir_in start 0)), w)
  | Some ain =>
      match w_heap w !! ain with
      | None => (Undefined, w)
      | Some cin =>
          if supported (get_datatype cin) then
            match smap_find dname (buffered_sockets_out dest) with
            | None =>
                (Throw (runtime_error "get_buffered_socket_out"
                          (msg_count_positive dir_out dname 0)), w)
            | Some aout =>
                match w_heap w !! aout with
                | None => (Undefined, w)
                | Some cout =>
                    if bool_decide (get_datatype cout = get_datatype cin) then
                      (Ok tt,
                       mkWorld (w_next w) (<[ain := bound_to cin cout]> (w_heap w))
                               (w_rings w) (w_log w ++ [EvBind ain aout]) (w_env w))
                    else
                      (Throw (runtime_error "get_buffered_socket_out"
                                (msg_datatype_equal dir_out dname
                                   (type_to_string (get_datatype cout))
                                   (type_to_string (get_datatype cin)))), w)
                end
            end
          else (Throw (runtime_error "bind" msg_should_not_happen), w)
      end
  end.

(** Every channel of the block is a live object of one of the six element
    types, allocated before the allocation counter of [w]. *)
Definition block_ok (b : Block) (w : World) : Prop :=
  forall d nm a,
    smap_find nm (channels d b) = Some a ->
    a < w_next w
    /\ exists c, w_heap w !! a = Some c /\ supported (get_datatype c) = true.

(** The getter of the block for channels of direction [d]. *)
Definition get_buffered_socket (d : sck_dir) : type_index -> Block -> string -> M nat :=
  match d with
  | dir_in => get_buffered_socket_in
  | dir_out => get_buffered_socket_out
  end.

Definition other_dir (d : sck_dir) : sck_dir :=
  match d with
  | dir_in => dir_out
  | dir_out => dir_in
  end.

(** The input socket [U_K] of the encoder task. *)
Definition ex_U_K : Socket := mkSocket 1 "U_K" ty_int32 4 SIN.

(** ** Further vocabulary: the worker loop *)

(** [guarded clear tr]: in [tr], every call of [pop], [exec] or [push] comes
    directly after a read of the stop flag that found it clear; [clear] tells
    whether the call before [tr] was such a read. *)
Fixpoint guarded (clear : bool) (tr : list event) : bool :=
  match tr with
  | [] => true
  | EvIsDone b :: tr' => guarded (negb b) tr'
  | EvPop _ _ _ :: tr' => clear && guarded false tr'
  | EvExec _ :: tr' => clear && guarded false tr'
  | EvPush _ _ _ :: tr' => clear && guarded false tr'
  | _ :: tr' => guarded false tr'
  end.

(** [guards clear c]: whatever [c] comes to, the calls it makes are guarded,
    when the call before them was a clear read of the flag or not ([clear]). *)
Definition guards {A} (clear : bool) (c : M A) : Prop :=
  forall w, exists tr,
    w_log (snd (c w)) = w_log w ++ tr /\ guarded clear tr = true.

(** [Block::run(is_done)]: the thread ids [execute_task] is started for, one
    thread each, in the order of the loop.  How the threads then interleave
    is not part of the embedding. *)
Definition run (this : Block) : list N :=
  map N.of_nat (seq 0 (N.to_nat (n_threads this))).

(** The calls of a polling loop [while (!is_done && call) {}] that has come
    to its end, [call r] being the call that answered [r]: rounds in which the
    flag was found clear and the call answered true, and then either a read
    that found the flag set, or a read that found it clear and the call
    answering false. *)
Inductive polled (call : bool -> event) : list event -> Prop :=
| polled_set : polled call [EvIsDone true]
| polled_false : polled call [EvIsDone false; call false]
| polled_again tr :
    polled call tr -> polled call (EvIsDone false :: call true :: tr).

(** [segs] holds one stretch of calls per entry of the map [m], in the order
    of the map, each stretch being a polling loop at that entry's channel
    come to its end. *)
Definition served_in_order (call : nat -> bool -> event) (m : smap)
    (segs : list (list event)) : Prop :=
  Forall2 (fun entry seg => polled (call (snd entry)) seg) m segs.

(** The last [k] answers of the environment all say "set" (true): from some
    point on, the stop flag is raised for good. *)
Definition ends_true (k : nat) (env : list bool) : Prop :=
  exists pre, env = pre ++ repeat true k.

(** Where the answers stand after some calls: the last [k] still all to
    come, or only trues left, at most [n] of the last [k] used up. *)
Definition trues_left (n k : nat) (env : list bool) : Prop :=
  ends_true k env \/ exists k', env = repeat true k' /\ k <= k' + n.

(** [op] asks the environment exactly once and returns the answer. *)
Definition asks_once (op : M bool) : Prop :=
  forall w b env,
    w_env w = b :: env ->
    exists w', op w = (Ok b, w') /\ w_env w' = env.

(** * Verification *)

(** ** The monad *)

Lemma bindM_Ok {A B} (c : M A) (k : A -> M B) w a w' :
  c w = (Ok a, w') -> bindM c k w = k a w'.
Proof. intros H. unfold bindM. now rewrite H. Qed.

Lemma bindM_inv_Ok {A B} (c : M A) (k : A -> M B) w b w'' :
  bindM c k w = (Ok b, w'') ->
  exists a w', c w = (Ok a, w') /\ k a w' = (Ok b, w'').
Proof.
  unfold bindM. destruct (c w) as [[a| | |] w'] eqn:E; try discriminate.
  intros H. now exists a, w'.
Qed.

(** A loop keeps an invariant that each pass of its body keeps, and does
    not fail if no pass does. *)
Lemma for_loop_invariant {S : Type} (I : nat -> S -> World -> Prop)
    (body : nat -> S -> M S) :
  forall n lo s w,
    I lo s w ->
    (forall i s w, lo <= i < lo + n -> I i s w ->
       exists s' w', body i s w = (Ok s', w') /\ I (Datatypes.S i) s' w') ->
    exists s' w', for_loop lo n body s w = (Ok s', w') /\ I (lo + n) s' w'.
Proof.
  induction n as [|n IH]; intros lo s w HI Hbody; simpl.
  - exists s, w. split; [reflexivity|]. now replace (lo + 0) with lo by lia.
  - destruct (Hbody lo s w) as (s1 & w1 & E1 & HI1); [lia|assumption|].
    destruct (IH (Datatypes.S lo) s1 w1 HI1) as (s2 & w2 & E2 & HI2).
    { intros i s' w' Hi. apply Hbody. lia. }
    exists s2, w2. split.
    + now rewrite (bindM_Ok _ _ _ _ _ E1).
    + now replace (lo + Datatypes.S n) with (Datatypes.S lo + n) by lia.
Qed.

Lemma for_int_run {S : Type} (n : N) (body : nat -> S -> M S) (s : S) :
  (n <= INT_MAX)%N -> for_int n body s = for_loop 0 (N.to_nat n) body s.
Proof.
  intros Hn. unfold for_int. now destruct (N.leb_spec n INT_MAX); [|lia].
Qed.

(** A loop whose [int] counter cannot reach its bound does not return. *)
Lemma for_int_overflow {S : Type} (n : N) (body : nat -> S -> M S) (s : S) w s' w' :
  (INT_MAX < n)%N -> for_int n body s w <> (Ok s', w').
Proof.
  intros Hn H. unfold for_int in H. destruct (N.leb_spec n INT_MAX); [lia|].
  apply bindM_inv_Ok in H as (? & ? & _ & H). discriminate H.
Qed.

Lemma new_threads_run (n : N) w :
  (n <= threads_max_size)%N -> new_threads n w = (Ok tt, w).
Proof.
  intros Hn. unfold new_threads. now destruct (N.ltb_spec threads_max_size n); [lia|].
Qed.

Lemma new_threads_throws (n : N) w :
  (threads_max_size < n)%N ->
  new_threads n w
  = (Throw (length_error "cannot create std::vector larger than max_size()"), w).
Proof.
  intros Hn. unfold new_threads. now destruct (N.ltb_spec threads_max_size n); [|lia].
Qed.

Lemma INT_MAX_threads : (INT_MAX < threads_max_size)%N.
Proof. reflexivity. Qed.

(** ** The string-keyed map *)

Lemma string_compare_refl (k : string) : String.compare k k = Eq.
Proof.
  pose proof (String.compare_antisym k k) as H.
  destruct (String.compare k k); simpl in H; congruence.
Qed.

Lemma smap_find_assign_eq k v m : smap_find k (smap_assign k v m) = Some v.
Proof.
  induction m as [|[k' v'] m IH]; simpl.
  - now rewrite String.eqb_refl.
  - destruct (String.compare k k') eqn:E; simpl.
    + now rewrite String.eqb_refl.
    + now rewrite String.eqb_refl.
    + destruct (String.eqb_spec k k') as [->|_].
      * rewrite string_compare_refl in E. discriminate.
      * exact IH.
Qed.

Lemma smap_find_assign_ne k k2 v m :
  k2 <> k -> smap_find k2 (smap_assign k v m) = smap_find k2 m.
Proof.
  intros Hne. induction m as [|[k' v'] m IH]; simpl.
  - destruct (String.eqb_spec k2 k); congruence.
  - destruct (String.compare k k') eqn:E; simpl.
    + apply String.compare_eq_iff in E. subst k'.
      destruct (String.eqb_spec k2 k); congruence.
    + destruct (String.eqb_spec k2 k); congruence.
    + destruct (String.eqb_spec k2 k'); [reflexivity|exact IH].
Qed.

Lemma smap_assign_length k v m :
  smap_find k m = None -> length (smap_assign k v m) = Datatypes.S (length m).
Proof.
  induction m as [|[k' v'] m IH]; simpl; intros H; [reflexivity|].
  destruct (String.eqb_spec k k') as [->|Hne]; [discriminate|].
  destruct (String.compare k k') eqn:E; simpl.
  - apply String.compare_eq_iff in E. congruence.
  - reflexivity.
  - now rewrite IH.
Qed.

Lemma smap_count_find k m :
  smap_count k m = match smap_find k m with Some _ => 1%N | None => 0%N end.
Proof. reflexivity. Qed.

(** [m[k] = v] keeps the keys in order. *)
Lemma smap_assign_sorted k v m : smap_sorted m -> smap_sorted (smap_assign k v m).
Proof.
  unfold smap_sorted. induction m as [|[k' v'] m IH]; simpl; intros Hm.
  - repeat constructor.
  - apply Sorted_inv in Hm as [Hm Hhd].
    destruct (String.compare k k') eqn:E.
    + apply String.compare_eq_iff in E. subst k'. constructor; [assumption|].
      destruct Hhd; constructor; assumption.
    + constructor; [now constructor|]. now constructor.
    + constructor; [now apply IH|].
      assert (Hlt : String.compare k' k = Lt).
      { rewrite String.compare_antisym, E. reflexivity. }
      destruct m as [|[k2 v2] m]; simpl.
      * now constructor.
      * apply HdRel_inv in Hhd. simpl in Hhd.
        destruct (String.compare k k2); now constructor.
Qed.

(** ** Construction *)

Lemma map_lookup {A B} (f : A -> B) (l : list A) (i : nat) :
  map f l !! i = option_map f (l !! i).
Proof.
  revert i. induction l as [|a l IH]; intros [|i]; simpl; try reflexivity.
  apply IH.
Qed.

Lemma Task_clone_run t w :
  Task_clone t w =
  (Ok (clone_of t (w_next w)),
   mkWorld (Datatypes.S (w_next w)) (w_heap w) (w_rings w)
           (w_log w ++ [EvClone (tk_id t) (w_next w)]) (w_env w)).
Proof. reflexivity. Qed.

Lemma new_Buffered_Socket_run T s_vec stype size w :
  new_Buffered_Socket T s_vec stype size w =
  (Ok (Datatypes.S (w_next w)),
   mkWorld (Datatypes.S (Datatypes.S (w_next w)))
           (<[Datatypes.S (w_next w) := mkBS T s_vec stype size (w_next w)]> (w_heap w))
           (<[w_next w := []]> (w_rings w))
           (w_log w ++ [EvNew (Datatypes.S (w_next w)) T stype size])
           (w_env w)).
Proof. reflexivity. Qed.

Lemma clone_loop_run proto :
  forall n lo acc w,
    for_loop lo n (fun _ tasks => let! t := Task_clone proto in ret (tasks ++ [t]))
             acc w =
    (Ok (acc ++ map (clone_of proto) (seq (w_next w) n)),
     mkWorld (w_next w + n) (w_heap w) (w_rings w)
             (w_log w ++ map (EvClone (tk_id proto)) (seq (w_next w) n)) (w_env w)).
Proof.
  induction n as [|n IH]; intros lo acc w; simpl.
  - unfold ret. destruct w; simpl. now rewrite !app_nil_r, Nat.add_0_r.
  - erewrite bindM_Ok; [|reflexivity]. rewrite IH. simpl.
    rewrite <- !app_assoc. simpl. repeat f_equal. lia.
Qed.

Lemma slots_of_unique tasks s_idx v1 v2 :
  slots_of tasks s_idx v1 -> slots_of tasks s_idx v2 -> v1 = v2.
Proof.
  unfold slots_of. intros H1. revert v2.
  induction H1 as [|t s tasks v1 Hs H1 IH]; intros v2 H2; inversion H2; subst.
  - reflexivity.
  - f_equal; [congruence|]. now apply IH.
Qed.

Lemma s_vec_loop_run (tasks : list Task) (s_idx : nat) w :
  (forall i t, tasks !! i = Some t -> is_Some (tk_sockets t !! s_idx)) ->
  exists s_vec,
    for_loop 0 (length tasks)
      (fun i s_vec =>
         let! t := at_index tasks i in
         let! s := at_index (tk_sockets t) s_idx in
         ret (s_vec ++ [s])) [] w = (Ok s_vec, w)
    /\ slots_of tasks s_idx s_vec.
Proof.
  intros Hall.
  destruct (for_loop_invariant
              (fun i sv w' => w' = w /\ slots_of (take i tasks) s_idx sv)
              (fun i s_vec =>
                 let! t := at_index tasks i in
                 let! s := at_index (tk_sockets t) s_idx in
                 ret (s_vec ++ [s]))
              (length tasks) 0 [] w) as (sv & w' & E & -> & Hsv).
  - split; [reflexivity|]. rewrite take_0. constructor.
  - intros i sv w' [_ Hi] [-> Hsv].
    destruct (lookup_lt_is_Some_2 tasks i) as [t Ht]; [lia|].
    destruct (Hall i t Ht) as [s Hs].
    exists (sv ++ [s]), w. split.
    + unfold at_index. rewrite Ht. simpl.
      unfold bindM at 1. unfold ret at 1. simpl.
      rewrite Hs. reflexivity.
    + split; [reflexivity|]. rewrite (take_S_r _ _ _ Ht).
      apply Forall2_app; [assumption|]. constructor; [assumption|constructor].
  - exists sv. split; [assumption|]. simpl in Hsv.
    now rewrite take_ge in Hsv by lia.
Qed.

Lemma pick_file_eq stype sname addr maps :
  smap_find sname (pick (dir_of stype) (file_socket stype sname addr maps)) = Some addr.
Proof.
  unfold dir_of, file_socket. destruct (decide (stype = SIN)); simpl;
    apply smap_find_assign_eq.
Qed.

Lemma pick_file_ne d nm stype sname addr maps :
  d <> dir_of stype \/ nm <> sname ->
  smap_find nm (pick d (file_socket stype sname addr maps)) = smap_find nm (pick d maps).
Proof.
  unfold dir_of, file_socket.
  destruct (decide (stype = SIN)), d; simpl; intros [H|H];
    try congruence; try reflexivity; now apply smap_find_assign_ne.
Qed.

Lemma file_socket_length stype sname addr maps :
  smap_find sname (pick (dir_of stype) maps) = None ->
  length (fst (file_socket stype sname addr maps))
  + length (snd (file_socket stype sname addr maps))
  = Datatypes.S (length (fst maps) + length (snd maps)).
Proof.
  unfold dir_of, file_socket. destruct (decide (stype = SIN)); simpl; intros H;
    rewrite smap_assign_length by assumption; lia.
Qed.

Lemma released_next old w : w_next (released old w) = w_next w.
Proof. now destruct old. Qed.

Lemma released_rings old w : w_rings (released old w) = w_rings w.
Proof. now destruct old. Qed.

Lemma released_log old w : w_log (released old w) = w_log w.
Proof. now destruct old. Qed.

Lemma released_env old w : w_env (released old w) = w_env w.
Proof. now destruct old. Qed.

Lemma released_heap_ne old w a :
  old <> Some a -> w_heap (released old w) !! a = w_heap w !! a.
Proof.
  destruct old as [a0|]; simpl; intros H; [|reflexivity].
  apply lookup_delete_ne. congruence.
Qed.

Lemma released_heap_eq w a : w_heap (released (Some a) w) !! a = None.
Proof. simpl. apply lookup_delete_eq. Qed.

Lemma add_buffered_socket_run task bs nt tasks s_idx maps w s :
  (nt <= INT_MAX)%N ->
  N.to_nat nt = length tasks ->
  (forall i t, tasks !! i = Some t -> is_Some (tk_sockets t !! s_idx)) ->
  tk_sockets task !! s_idx = Some s ->
  exists s_vec,
    slots_of tasks s_idx s_vec /\
    add_buffered_socket task bs nt tasks s_idx maps w =
    if supported (sck_datatype s) then
      (Ok (file_socket (sck_type s) (sck_name s) (Datatypes.S (w_next w)) maps),
       released (smap_find (sck_name s) (pick (dir_of (sck_type s)) maps))
                (with_channel w (sck_datatype s) s_vec (sck_type s) bs))
    else (Ok maps, w).
Proof.
  intros Hint Hlen Hall Hs.
  destruct (s_vec_loop_run tasks s_idx w Hall) as (sv & E & Hsv).
  exists sv. split; [assumption|].
  unfold add_buffered_socket.
  rewrite (for_int_run _ _ _ Hint), Hlen, (bindM_Ok _ _ _ _ _ E).
  unfold at_index. rewrite Hs. unfold bindM at 1, ret at 1.
  unfold get_datatype_string, get_socket_type, file_socket, dir_of.
  destruct (sck_datatype s); cbn [type_to_string String.eqb Ascii.eqb Bool.eqb supported];
    try reflexivity;
    (erewrite bindM_Ok by apply new_Buffered_Socket_run;
     destruct (decide (sck_type s = SIN)); cbn [pick];
     [destruct (smap_find (sck_name s) (fst maps))
     |destruct (smap_find (sck_name s) (snd maps))]; reflexivity).
Qed.

(** Where an entry of the maps comes from, once a channel is filed. *)
Lemma file_socket_find d nm stype sname addr maps a :
  smap_find nm (pick d (file_socket stype sname addr maps)) = Some a ->
  (d = dir_of stype /\ nm = sname /\ a = addr)
  \/ ((d <> dir_of stype \/ nm <> sname) /\ smap_find nm (pick d maps) = Some a).
Proof.
  intros Hfind.
  destruct (decide (d = dir_of stype /\ nm = sname)) as [[-> ->]|Hne].
  - rewrite pick_file_eq in Hfind. injection Hfind as <-. auto.
  - assert (Hne' : d <> dir_of stype \/ nm <> sname)
      by (destruct (decide (d = dir_of stype)); [right|left]; tauto).
    rewrite pick_file_ne in Hfind by assumption. auto.
Qed.

(** The assignment destroys no channel that another entry holds. *)
Lemma kept_entry_alive w0 maps v d nm a stype sname T sv bs :
  fresh_channels w0 maps v ->
  d <> dir_of stype \/ nm <> sname ->
  smap_find nm (pick d maps) = Some a ->
  w_heap (released (smap_find sname (pick (dir_of stype) maps))
                   (with_channel v T sv stype bs)) !! a
  = w_heap v !! a.
Proof.
  intros (Hrange & Hinj & _) Hne Hfind.
  rewrite released_heap_ne.
  - simpl. apply lookup_insert_ne. specialize (Hrange _ _ _ Hfind). lia.
  - intros Hold. destruct (Hinj _ _ _ _ _ Hfind Hold). tauto.
Qed.

Lemma new_entry_alive w0 maps v stype sname T sv bs :
  fresh_channels w0 maps v ->
  w_heap (released (smap_find sname (pick (dir_of stype) maps))
                   (with_channel v T sv stype bs)) !! Datatypes.S (w_next v)
  = Some (mkBS T sv stype bs (w_next v)).
Proof.
  intros (Hrange & _).
  rewrite released_heap_ne.
  - simpl. apply lookup_insert_eq.
  - intros Hold. specialize (Hrange _ _ _ Hold). lia.
Qed.

Lemma old_world_alive w0 maps v stype sname T sv bs a :
  fresh_channels w0 maps v ->
  a < w_next w0 ->
  w_heap (released (smap_find sname (pick (dir_of stype) maps))
                   (with_channel v T sv stype bs)) !! a
  = w_heap v !! a.
Proof.
  intros (Hrange & _ & Hnext & _) Ha.
  rewrite released_heap_ne.
  - simpl. apply lookup_insert_ne. lia.
  - intros Hold. specialize (Hrange _ _ _ Hold). lia.
Qed.

Lemma fresh_channels_init w0 : fresh_channels w0 ([], []) w0.
Proof.
  split_and!.
  - intros [] nm a; discriminate.
  - intros [] nm d' nm' a; discriminate.
  - lia.
  - auto.
Qed.

Lemma fresh_channels_step w0 maps v stype sname T sv bs :
  fresh_channels w0 maps v ->
  fresh_channels w0 (file_socket stype sname (Datatypes.S (w_next v)) maps)
    (released (smap_find sname (pick (dir_of stype) maps))
              (with_channel v T sv stype bs)).
Proof.
  intros Hfresh. pose proof Hfresh as (Hrange & Hinj & Hnext & Hkept).
  split_and!.
  - intros d nm a Hfind. rewrite released_next. simpl.
    destruct (file_socket_find _ _ _ _ _ _ _ Hfind) as [(_ & _ & ->)|[_ Hold]]; [lia|].
    specialize (Hrange _ _ _ Hold). lia.
  - intros d nm d' nm' a H1 H2.
    destruct (file_socket_find _ _ _ _ _ _ _ H1) as [(-> & -> & ->)|[_ Hold1]];
      destruct (file_socket_find _ _ _ _ _ _ _ H2) as [(-> & -> & E)|[_ Hold2]];
      auto.
    + specialize (Hrange _ _ _ Hold2). lia.
    + specialize (Hrange _ _ _ Hold1). lia.
    + now apply (Hinj d nm d' nm' a).
  - rewrite released_next. simpl. lia.
  - intros a Ha. split.
    + rewrite (old_world_alive w0) by assumption. now apply Hkept.
    + rewrite released_rings. simpl. rewrite lookup_insert_ne by lia. now apply Hkept.
Qed.

Lemma unique_name_index (sockets : list Socket) i j s s' :
  NoDup (map sck_name sockets) ->
  sockets !! i = Some s -> sockets !! j = Some s' ->
  sck_name s = sck_name s' -> i = j.
Proof.
  intros Hnd Hi Hj Hname.
  apply (NoDup_lookup _ i j (sck_name s) Hnd); rewrite map_lookup.
  - now rewrite Hi.
  - rewrite Hj. simpl. now rewrite Hname.
Qed.

Section SocketLoop.
Variables (task : Task) (bs nt : N) (tasks : list Task) (w_start : World).

Hypothesis nt_int : (nt <= INT_MAX)%N.
Hypothesis tasks_length : N.to_nat nt = length tasks.
Hypothesis tasks_aligned :
  forall i t s_idx, tasks !! i = Some t ->
    s_idx < length (tk_sockets task) -> is_Some (tk_sockets t !! s_idx).

Lemma socket_inv_init : socket_inv task bs tasks w_start 0 ([], []) w_start.
Proof.
  split; [|split; [|split]].
  - intros [] nm a; discriminate.
  - exists []. rewrite app_nil_r. repeat split; auto.
  - intros _. split.
    + intros j s Hj. lia.
    + reflexivity.
  - apply fresh_channels_init.
Qed.

Lemma socket_inv_step i maps w :
  i < length (tk_sockets task) ->
  socket_inv task bs tasks w_start i maps w ->
  exists maps' w',
    add_buffered_socket task bs nt tasks i maps w = (Ok maps', w') /\
    socket_inv task bs tasks w_start (Datatypes.S i) maps' w'.
Proof.
  intros Hi (Hsound & Hgrow & Hnd & Hfresh).
  destruct (lookup_lt_is_Some_2 (tk_sockets task) i Hi) as [s Hs].
  destruct (add_buffered_socket_run task bs nt tasks i maps w s nt_int tasks_length)
    as (sv & Hsv & E); [|assumption|].
  { intros j t Ht. now apply (tasks_aligned j). }
  rewrite E. clear E.
  destruct Hgrow as (news & Hlog & Hnews & Hcount & Henv & Hnext & Hheap).
  destruct (supported (sck_datatype s)) eqn:Hsup;
    (eexists; eexists; split; [reflexivity|]).
  - (* a channel is made and filed *)
    assert (Hsup' : is_supported_socket s = true) by exact Hsup.
    set (c := mkBS (sck_datatype s) sv (sck_type s) bs (w_next w)).
    assert (Hc : channel_of bs tasks i s c) by (now constructor).
    pose proof (new_entry_alive w_start maps w (sck_type s) (sck_name s)
                  (sck_datatype s) sv bs Hfresh) as Hnew.
    fold c in Hnew.
    split; [|split; [|split]].
    + intros d nm a Hfind. rewrite released_next. simpl.
      destruct (file_socket_find _ _ _ _ _ _ _ Hfind) as [(-> & -> & ->)|[Hne Hold]].
      * split; [lia|]. exists i, s, c. split_and!; auto.
      * destruct (Hsound d nm a Hold)
          as (Ha & j & s' & c' & Hj & H1 & H2 & H3 & H4 & H5 & H6).
        split; [lia|]. exists j, s', c'.
        rewrite (kept_entry_alive w_start maps w d nm a) by assumption.
        split_and!; auto.
    + exists (news ++ [EvNew (Datatypes.S (w_next w)) (sck_datatype s) (sck_type s) bs]).
      rewrite released_log, released_env, released_next.
      rewrite (take_S_r _ _ _ Hs), List.filter_app. simpl.
      rewrite Hsup', Hlog, <- app_assoc, forallb_app, Hnews, !length_app, Hcount.
      simpl. repeat split; auto.
      intros a Ha. rewrite (old_world_alive w_start) by assumption. now apply Hheap.
    + intros Hnodup. destruct (Hnd Hnodup) as [Hcomplete Hcounted].
      assert (Hnone : smap_find (sck_name s) (pick (dir_of (sck_type s)) maps) = None).
      { destruct (smap_find _ _) as [a|] eqn:Hfind; [|reflexivity].
        destruct (Hsound _ _ _ Hfind) as (_ & j & s' & _ & Hj & H1 & H2 & _).
        pose proof (unique_name_index _ _ _ _ _ Hnodup H1 Hs H2). lia. }
      split.
      * intros j s' Hj Hs' Hsup2.
        destruct (decide (j = i)) as [->|Hji].
        -- assert (s' = s) by congruence. subst s'.
           exists (Datatypes.S (w_next w)), c.
           rewrite pick_file_eq. auto.
        -- destruct (Hcomplete j s') as (a & c' & Hfind & Hheap' & Hc'); [lia|auto..|].
           exists a, c'.
           assert (Hne : dir_of (sck_type s') <> dir_of (sck_type s)
                         \/ sck_name s' <> sck_name s).
           { right. intros Heq.
             apply Hji. exact (unique_name_index _ _ _ _ _ Hnodup Hs' Hs Heq). }
           rewrite (kept_entry_alive w_start maps w (dir_of (sck_type s'))
                      (sck_name s') a) by assumption.
           rewrite pick_file_ne by assumption. auto.
      * unfold entries_counted in *.
        rewrite (take_S_r _ _ _ Hs), List.filter_app. simpl.
        rewrite Hsup', file_socket_length by assumption.
        rewrite length_app. simpl. lia.
    + now apply fresh_channels_step.
  - (* no branch of the dispatch is taken *)
    assert (Hsup' : is_supported_socket s = false) by exact Hsup.
    split; [|split; [|split]].
    + intros d nm a Hfind.
      destruct (Hsound d nm a Hfind) as (Ha & j & s' & c' & Hj & H).
      split; [assumption|]. exists j, s', c'. split; [lia|assumption].
    + exists news. rewrite (take_S_r _ _ _ Hs), List.filter_app. simpl.
      rewrite Hsup', app_nil_r. repeat split; auto.
    + intros Hnodup. destruct (Hnd Hnodup) as [Hcomplete Hcounted].
      split.
      * intros j s' Hj Hs' Hsup2.
        destruct (decide (j = i)) as [->|Hji]; [congruence|].
        apply Hcomplete; auto. lia.
      * unfold entries_counted in *.
        rewrite (take_S_r _ _ _ Hs), List.filter_app. simpl.
        now rewrite Hsup', app_nil_r.
    + assumption.
Qed.

Lemma socket_loop_run :
  exists maps w',
    for_loop 0 (length (tk_sockets task))
      (add_buffered_socket task bs nt tasks) ([], []) w_start = (Ok maps, w')
    /\ socket_inv task bs tasks w_start (length (tk_sockets task)) maps w'.
Proof.
  apply (for_loop_invariant (socket_inv task bs tasks w_start)).
  - apply socket_inv_init.
  - intros i maps w [_ Hi] Hinv. apply socket_inv_step; [lia|assumption].
Qed.
End SocketLoop.

Lemma replicas_length task p nt : length (replicas task p nt) = N.to_nat nt.
Proof. unfold replicas. now rewrite length_map, length_seq. Qed.

Lemma replicas_lookup task p nt i t :
  replicas task p nt !! i = Some t ->
  i < N.to_nat nt /\ t = clone_of (prototype task p) (Datatypes.S p + i).
Proof.
  unfold replicas. rewrite map_lookup.
  destruct (seq _ _ !! i) as [id|] eqn:E; simpl; [|discriminate].
  apply lookup_seq in E as [-> Hi]. intros [= <-]. auto.
Qed.

Lemma replica_socket task p id j s :
  tk_sockets task !! j = Some s ->
  tk_sockets (clone_of (prototype task p) id) !! j
  = Some (mkSocket id (sck_name s) (sck_datatype s) (sck_n_elmts s) (sck_type s)).
Proof.
  intros Hs. simpl. rewrite !map_lookup, Hs. reflexivity.
Qed.

Lemma prototype_run {B} task w (k : Task -> M B) :
  (let! task_cpy := Task_clone task in
   let! task_cpy := set_autoalloc task_cpy false in
   let! task_cpy := set_autoexec task_cpy false in
   let! task_cpy := set_fast task_cpy false in
   k task_cpy) w
  = k (prototype task (w_next w))
      (mkWorld (Datatypes.S (w_next w)) (w_heap w) (w_rings w)
               (w_log w ++ prototype_events task (w_next w)) (w_env w)).
Proof.
  unfold bindM, Task_clone, set_autoalloc, set_autoexec, set_fast, bindM, fresh,
    emit, ret, prototype, prototype_events. simpl.
  now rewrite <- !app_assoc.
Qed.

Lemma Block_ctor_run task bs nt w :
  nt <> 0%N -> (nt <= bs)%N -> (nt <= INT_MAX)%N ->
  exists b w', Block_ctor task bs nt w = (Ok b, w') /\ ctor_post task bs nt w b w'.
Proof.
  intros Hnt Hbs Hint. unfold Block_ctor.
  pose proof INT_MAX_threads as Hmax.
  rewrite (bindM_Ok _ _ _ _ _ (new_threads_run nt w ltac:(lia))).
  destruct (N.eqb_spec nt 0) as [|_]; [contradiction|].
  destruct (N.ltb_spec bs nt) as [|_]; [lia|].
  rewrite prototype_run, (for_int_run _ _ _ Hint),
    (bindM_Ok _ _ _ _ _ (clone_loop_run _ _ _ _ _)).
  cbn [w_next w_heap w_rings w_log w_env tk_id prototype].
  fold (replicas task (w_next w) nt). rewrite !app_nil_l.
  set (w_mid := mkWorld _ _ _ _ _).
  destruct (socket_loop_run task bs nt (replicas task (w_next w) nt) w_mid)
    as (maps & w' & E & Hsound & Hgrow & Hnd & _).
  - assumption.
  - now rewrite replicas_length.
  - intros i t j Ht Hj. apply replicas_lookup in Ht as [_ ->].
    destruct (lookup_lt_is_Some_2 _ _ Hj) as [s Hs].
    rewrite (replica_socket _ _ _ _ _ Hs). eauto.
  - rewrite (bindM_Ok _ _ _ _ _ E). eexists; eexists; split; [reflexivity|].
    destruct Hgrow as (news & Hlog & Hnews & Hcount & Henv & Hnext & Hheap).
    rewrite take_ge in Hcount by lia.
    destruct maps as [m_in m_out]. constructor; simpl; auto.
    + exists news. split; [|auto]. rewrite Hlog. subst w_mid. simpl.
      now rewrite <- !app_assoc.
    + intros a Ha. rewrite Hheap; [reflexivity|]. subst w_mid. simpl. lia.
Qed.

Lemma pick_channels d b :
  pick d (buffered_sockets_in b, buffered_sockets_out b) = channels d b.
Proof. now destruct d. Qed.

(** A construction that returns was given arguments that pass the two
    tests, and a thread count its [int] counters reach. *)
Lemma Block_ctor_Ok_args task bs nt w b w' :
  Block_ctor task bs nt w = (Ok b, w') ->
  nt <> 0%N /\ (nt <= bs)%N /\ (nt <= INT_MAX)%N.
Proof.
  intros H. unfold Block_ctor in H.
  apply bindM_inv_Ok in H as ([] & w1 & _ & H).
  destruct (N.eqb_spec nt 0) as [|Hnt]; [discriminate H|].
  destruct (N.ltb_spec bs nt) as [|Hbs]; [discriminate H|].
  split; [assumption|]. split; [assumption|].
  destruct (N.le_gt_cases nt INT_MAX) as [|Hover]; [assumption|].
  rewrite prototype_run in H.
  apply bindM_inv_Ok in H as (ts & w2 & H & _).
  now apply for_int_overflow in H.
Qed.

Lemma Block_ctor_inv task bs nt w b w' :
  Block_ctor task bs nt w = (Ok b, w') ->
  nt <> 0%N /\ (nt <= bs)%N /\ ctor_post task bs nt w b w'.
Proof.
  intros H.
  destruct (Block_ctor_Ok_args _ _ _ _ _ _ H) as (Hnt & Hbs & Hint).
  destruct (Block_ctor_run task bs nt w Hnt Hbs Hint) as (b0 & w0 & E & Hpost).
  rewrite E in H. injection H as <- <-. auto.
Qed.

(** Every channel a constructor call files carries one of the six element
    types. *)
Lemma Block_ctor_channels_supported task bs nt w b w' d nm a :
  Block_ctor task bs nt w = (Ok b, w') ->
  smap_find nm (channels d b) = Some a ->
  exists c, w_heap w' !! a = Some c /\ supported (get_datatype c) = true.
Proof.
  intros H Hfind. apply Block_ctor_inv in H as (_ & _ & Hpost).
  rewrite <- pick_channels in Hfind.
  destruct (cp_sound _ _ _ _ _ _ Hpost _ _ _ Hfind)
    as (_ & j & s & c & _ & _ & _ & _ & Hsup & Hheap & Hc).
  exists c. split; [assumption|]. now rewrite (co_datatype _ _ _ _ _ Hc).
Qed.

Lemma ex_enc_block_built :
  Block_ctor ex_encoder 2 2 ex_world = (Ok ex_enc_block, ex_world1).
Proof. vm_compute. reflexivity. Qed.

Lemma ex_mod_block_built :
  Block_ctor ex_modem 2 2 ex_world1 = (Ok ex_mod_block, ex_wired).
Proof. vm_compute. reflexivity. Qed.




Lemma replicas_ids task p nt :
  map tk_id (replicas task p nt) = seq (Datatypes.S p) (N.to_nat nt).
Proof.
  unfold replicas. rewrite map_map. simpl. apply map_id.
Qed.

Lemma replicas_elem task p nt t :
  t ∈ replicas task p nt ->
  exists i, i < N.to_nat nt /\ t = clone_of (prototype task p) (Datatypes.S p + i).
Proof.
  intros Ht. apply list_elem_of_lookup in Ht as [i Hi].
  exists i. now apply replicas_lookup.
Qed.

(** C7: after a successful construction the block holds exactly [n_threads]
    replicas, which are independent (each at a fresh address of its own, each
    owning its sockets), and every endpoint descriptor of the template (its
    element type being one of the six kinds, and names being unique within a
    task) has its channel: filed under the endpoint's name in the map of the
    endpoint's direction, of the endpoint's element type and of capacity
    [buffer_size], wired to that endpoint of every replica; the two maps hold
    as many channels as there are such endpoints, so exactly one each. *)
Theorem Block_ctor_replicas_and_channels (task : Task) (bs nt : N) (w w' : World)
    (b : Block) :
  NoDup (map sck_name (tk_sockets task)) ->
  Block_ctor task bs nt w = (Ok b, w') ->
  length (tasks b) = N.to_nat nt
  /\ NoDup (map tk_id (tasks b))
  /\ Forall (fun t => w_next w < tk_id t
                     /\ Forall (fun s => sck_task s = tk_id t) (tk_sockets t))
            (tasks b)
  /\ (forall j s,
        tk_sockets task !! j = Some s -> supported (sck_datatype s) = true ->
        exists a c,
          smap_find (sck_name s) (channels (dir_of (sck_type s)) b) = Some a
          /\ w_heap w' !! a = Some c
          /\ get_datatype c = sck_datatype s
          /\ bs_capacity c = bs
          /\ slots_of (tasks b) j (bs_sockets c))
  /\ length (buffered_sockets_in b) + length (buffered_sockets_out b)
     = length (List.filter is_supported_socket (tk_sockets task)).
Proof.
  intros Hnodup H.
  apply Block_ctor_inv in H as (Hnt & Hbs & Hpost).
  destruct Hpost as [_ _ _ Htasks _ _ _ _ Hcomplete].
  destruct (Hcomplete Hnodup) as [Hall Hcount]. clear Hcomplete.
  rewrite Htasks in *. split_and!.
  - apply replicas_length.
  - rewrite replicas_ids. apply NoDup_seq.
  - rewrite Forall_forall. intros t Ht.
    apply replicas_elem in Ht as (i & Hi & ->). simpl.
    split; [lia|]. rewrite Forall_forall. intros s Hs.
    apply list_elem_of_In, in_map_iff in Hs as (s0 & <- & _). reflexivity.
  - intros j s Hs Hsup.
    destruct (Hall j s) as (a & c & Hfind & Hheap & Hc); [|assumption..|].
    + apply lookup_lt_is_Some. eauto.
    + rewrite pick_channels in Hfind. destruct Hc. exists a, c. split_and!; auto.
  - unfold entries_counted in Hcount. simpl in Hcount. rewrite Hcount.
    now rewrite take_ge by lia.
Qed.

Lemma Block_ctor_replicas_and_channels_witness :
  length (tasks ex_enc_block) = 2
  /\ NoDup (map tk_id (tasks ex_enc_block))
  /\ (exists a c,
        smap_find "U_K" (buffered_sockets_in ex_enc_block) = Some a
        /\ w_heap ex_world1 !! a = Some c
        /\ get_datatype c = ty_int32
        /\ bs_capacity c = 2%N
        /\ slots_of (tasks ex_enc_block) 0 (bs_sockets c))
  /\ length (buffered_sockets_in ex_enc_block)
     + length (buffered_sockets_out ex_enc_block) = 2.
Proof.
  assert (Hnd : NoDup (map sck_name (tk_sockets ex_encoder))).
  { apply (bool_decide_unpack _). vm_compute. exact I. }
  destruct (Block_ctor_replicas_and_channels ex_encoder 2 2 ex_world ex_world1
              ex_enc_block Hnd ex_enc_block_built)
    as (Hlen & Hids & _ & Hch & Hcount).
  split; [exact Hlen|]. split; [exact Hids|]. split; [|exact Hcount].
  exact (Hch 0 (mkSocket 1 "U_K" ty_int32 4 SIN) eq_refl eq_refl).
Defined.

(** C9: construction clones the template once into a prototype, switches
    automatic allocation, automatic execution and the fast path off on that
    prototype, and only then clones the prototype [n_threads] times; every
    replica so produced has the three flags off. *)
Theorem Block_ctor_flags_off (task : Task) (bs nt : N) (w w' : World) (b : Block) :
  Block_ctor task bs nt w = (Ok b, w') ->
  Forall (fun t => tk_autoalloc t = false /\ tk_autoexec t = false
                   /\ tk_fast t = false) (tasks b)
  /\ length (tasks b) = N.to_nat nt
  /\ exists news,
       w_log w' = w_log w
                  ++ [EvClone (tk_id task) (w_next w);
                      EvSetAutoalloc (w_next w) false;
                      EvSetAutoexec (w_next w) false;
                      EvSetFast (w_next w) false]
                  ++ map (EvClone (w_next w)) (map tk_id (tasks b))
                  ++ news
       /\ forallb is_new news = true.
Proof.
  intros H. apply Block_ctor_inv in H as (_ & _ & Hpost).
  destruct Hpost as [_ _ _ Htasks (news & Hlog & Hnews & _) _ _ _ _].
  rewrite Htasks. split_and!.
  - rewrite Forall_forall. intros t Ht.
    apply replicas_elem in Ht as (i & _ & ->). simpl. auto.
  - apply replicas_length.
  - exists news. rewrite replicas_ids. auto.
Qed.

Lemma Block_ctor_flags_off_witness :
  Forall (fun t => tk_autoalloc t = false /\ tk_autoexec t = false
                   /\ tk_fast t = false) (tasks ex_enc_block)
  /\ length (tasks ex_enc_block) = 2
  /\ exists news,
       w_log ex_world1 = [EvClone 1 10; EvSetAutoalloc 10 false;
                          EvSetAutoexec 10 false; EvSetFast 10 false]
                         ++ map (EvClone 10) (map tk_id (tasks ex_enc_block))
                         ++ news
       /\ forallb is_new news = true.
Proof.
  exact (Block_ctor_flags_off ex_encoder 2 2 ex_world ex_world1 ex_enc_block
           ex_enc_block_built).
Defined.

(** ** Binding *)

Lemma type_to_string_eqb (t T : type_index) :
  supported T = true ->
  String.eqb (type_to_string t) (type_to_string T) = bool_decide (t = T).
Proof.
  intros HT. destruct T; try discriminate; destruct t; reflexivity.
Qed.

Lemma deref_run addr c w : w_heap w !! addr = Some c -> deref addr w = (Ok c, w).
Proof. intros H. unfold deref. now rewrite H. Qed.

Lemma smap_at_run k m a w : smap_find k m = Some a -> smap_at k m w = (Ok a, w).
Proof. intros H. unfold smap_at. now rewrite H. Qed.

Lemma smap_count_Some k m a : smap_find k m = Some a -> smap_count k m = 1%N.
Proof. intros H. unfold smap_count. now rewrite H. Qed.

Lemma smap_count_None k m : smap_find k m = None -> smap_count k m = 0%N.
Proof. intros H. unfold smap_count. now rewrite H. Qed.

Lemma get_buffered_socket_in_run T this nm a c w :
  supported T = true ->
  smap_find nm (buffered_sockets_in this) = Some a ->
  w_heap w !! a = Some c ->
  get_buffered_socket_in T this nm w =
  if bool_decide (get_datatype c = T) then (Ok a, w)
  else (Throw (runtime_error "get_buffered_socket_in"
                 (msg_datatype_equal dir_in nm (type_to_string (get_datatype c))
                    (type_to_string T))), w).
Proof.
  intros HT Hfind Hheap. unfold get_buffered_socket_in.
  rewrite (smap_count_Some _ _ _ Hfind). simpl.
  rewrite (bindM_Ok _ _ _ _ _ (smap_at_run _ _ _ _ Hfind)).
  rewrite (bindM_Ok _ _ _ _ _ (deref_run _ _ _ Hheap)).
  unfold get_socket_datatype, get_datatype. rewrite (type_to_string_eqb _ _ HT).
  now destruct (bool_decide _).
Qed.

Lemma get_buffered_socket_out_run T this nm a c w :
  supported T = true ->
  smap_find nm (buffered_sockets_out this) = Some a ->
  w_heap w !! a = Some c ->
  get_buffered_socket_out T this nm w =
  if bool_decide (get_datatype c = T) then (Ok a, w)
  else (Throw (runtime_error "get_buffered_socket_out"
                 (msg_datatype_equal dir_out nm (type_to_string (get_datatype c))
                    (type_to_string T))), w).
Proof.
  intros HT Hfind Hheap. unfold get_buffered_socket_out.
  rewrite (smap_count_Some _ _ _ Hfind). simpl.
  rewrite (bindM_Ok _ _ _ _ _ (smap_at_run _ _ _ _ Hfind)).
  rewrite (bindM_Ok _ _ _ _ _ (deref_run _ _ _ Hheap)).
  unfold get_socket_datatype, get_datatype. rewrite (type_to_string_eqb _ _ HT).
  now destruct (bool_decide _).
Qed.

Lemma get_buffered_socket_out_absent T this nm w :
  smap_find nm (buffered_sockets_out this) = None ->
  get_buffered_socket_out T this nm w =
  (Throw (runtime_error "get_buffered_socket_out" (msg_count_positive dir_out nm 0)), w).
Proof.
  intros Hfind. unfold get_buffered_socket_out.
  now rewrite (smap_count_None _ _ Hfind).
Qed.

(** The dispatch of [bind] on the element type of the caller's input
    channel. *)
Lemma bind_dispatch this start dest dname a c w :
  smap_find start (buffered_sockets_in this) = Some a ->
  w_heap w !! a = Some c ->
  bind this start dest dname w =
  if supported (get_datatype c)
  then bind_by_type (get_datatype c) this start dest dname w
  else (Throw (runtime_error "bind" msg_should_not_happen), w).
Proof.
  intros Hfind Hheap. unfold bind.
  rewrite (smap_count_Some _ _ _ Hfind). simpl.
  rewrite (bindM_Ok _ _ _ _ _ (smap_at_run _ _ _ _ Hfind)).
  rewrite (bindM_Ok _ _ _ _ _ (deref_run _ _ _ Hheap)).
  destruct (get_datatype c); reflexivity.
Qed.

Lemma bind_absent this start dest dname w :
  smap_find start (buffered_sockets_in this) = None ->
  bind this start dest dname w =
  (Throw (runtime_error "bind" (msg_count_positive dir_in start 0)), w).
Proof.
  intros Hfind. unfold bind. now rewrite (smap_count_None _ _ Hfind).
Qed.

Lemma bind_by_type_absent_out T this start dest dname w :
  smap_find dname (buffered_sockets_out dest) = None ->
  forall w', bind_by_type T this start dest dname w <> (Ok tt, w').
Proof.
  intros Hfind w'. unfold bind_by_type, bindM at 1.
  destruct (get_buffered_socket_in T this start w) as [[a| | |] w1]; try discriminate.
  unfold bindM. now rewrite (get_buffered_socket_out_absent _ _ _ _ Hfind).
Qed.

Lemma bind_absent_out this start dest dname w :
  smap_find dname (buffered_sockets_out dest) = None ->
  forall w', bind this start dest dname w <> (Ok tt, w').
Proof.
  intros Hfind w'. unfold bind.
  destruct (N.eqb _ 0); [discriminate|].
  unfold bindM at 1. destruct (smap_at _ _ w) as [[a| | |] w1]; try discriminate.
  unfold bindM at 1. destruct (deref a w1) as [[c| | |] w2]; try discriminate.
  repeat (destruct (decide _); [now apply bind_by_type_absent_out|]).
  discriminate.
Qed.

(** C8: when the element type of the channel [bind] looks up is none of the
    six kinds, [bind] throws the run-time error of the Unreachable kind ("This
    should not happen"); when it is one of the six, [bind] is [bind_by_type]
    at exactly that type. *)
Theorem bind_dispatch_on_type (this dest : Block) (start dname : string)
    (w : World) (a : nat) (c : NT_Buffered_Socket) :
  smap_find start (buffered_sockets_in this) = Some a ->
  w_heap w !! a = Some c ->
  (supported (get_datatype c) = false ->
   bind this start dest dname w = (Throw (runtime_error "bind" msg_should_not_happen), w)
   /\ error_kind (runtime_error "bind" msg_should_not_happen) = Unreachable)
  /\ (supported (get_datatype c) = true ->
      bind this start dest dname w
      = bind_by_type (get_datatype c) this start dest dname w).
Proof.
  intros Hfind Hheap. rewrite (bind_dispatch _ _ dest dname _ _ _ Hfind Hheap).
  split; intros ->; auto.
Qed.

Lemma bind_dispatch_on_type_witness :
  (bind ex_odd_block "p" ex_enc_block "X_N" ex_odd_world
   = (Throw (runtime_error "bind" msg_should_not_happen), ex_odd_world)
   /\ error_kind (runtime_error "bind" msg_should_not_happen) = Unreachable)
  /\ bind ex_mod_block "X_N1" ex_enc_block "X_N" ex_wired
     = bind_by_type ty_int32 ex_mod_block "X_N1" ex_enc_block "X_N" ex_wired.
Proof.
  split.
  - apply (proj1 (bind_dispatch_on_type ex_odd_block ex_enc_block "p" "X_N"
                    ex_odd_world 0 (mkBS (ty_other 7) [] SIN 1 1) eq_refl eq_refl)).
    reflexivity.
  - apply (proj2 (bind_dispatch_on_type ex_mod_block ex_enc_block "X_N1" "X_N"
                    ex_wired 21 ex_mod_in eq_refl ltac:(vm_compute; reflexivity))).
    reflexivity.
Defined.

(** C5: a [bind] whose first name is no endpoint of the calling block (it has
    no entry among that block's input channels, where [bind] looks it up), or
    whose second name is no endpoint of the destination block (no entry among
    that block's output channels), throws the run-time error of the NotFound
    kind, and the world is left as it was: no connection is made. *)
Theorem bind_unknown_name (this dest : Block) (start dname : string) (w : World) :
  (smap_find start (buffered_sockets_in this) = None ->
   exists e, bind this start dest dname w = (Throw e, w)
             /\ error_kind e = NotFound)
  /\ (forall a c,
        smap_find start (buffered_sockets_in this) = Some a ->
        w_heap w !! a = Some c ->
        supported (get_datatype c) = true ->
        smap_find dname (buffered_sockets_out dest) = None ->
        exists e, bind this start dest dname w = (Throw e, w)
                  /\ error_kind e = NotFound).
Proof.
  split.
  - intros Hfind. rewrite (bind_absent _ _ _ _ _ Hfind). eauto.
  - intros a c Hfind Hheap Hsup Hout.
    rewrite (bind_dispatch _ _ dest dname _ _ _ Hfind Hheap), Hsup.
    unfold bind_by_type.
    rewrite (bindM_Ok _ _ w a w).
    + unfold bindM. rewrite (get_buffered_socket_out_absent _ _ _ _ Hout). eauto.
    + rewrite (get_buffered_socket_in_run _ _ _ _ _ _ Hsup Hfind Hheap).
      now rewrite bool_decide_eq_true_2.
Qed.

Lemma bind_unknown_name_witness :
  (exists e, bind ex_mod_block "nope" ex_enc_block "X_N" ex_wired = (Throw e, ex_wired)
             /\ error_kind e = NotFound)
  /\ (exists e, bind ex_mod_block "X_N1" ex_enc_block "nope" ex_wired = (Throw e, ex_wired)
                /\ error_kind e = NotFound).
Proof.
  split.
  - apply (proj1 (bind_unknown_name ex_mod_block ex_enc_block "nope" "X_N" ex_wired)).
    reflexivity.
  - apply (proj2 (bind_unknown_name ex_mod_block ex_enc_block "X_N1" "nope" ex_wired)
             21 ex_mod_in).
    + reflexivity.
    + vm_compute. reflexivity.
    + reflexivity.
    + reflexivity.
Defined.

(** C4: a [bind] of two endpoints whose element types differ throws the
    run-time error of the TypeMismatch kind, and the world is left as it
    was: neither channel is modified. *)
Theorem bind_type_mismatch (this dest : Block) (start dname : string) (w : World)
    (ain aout : nat) (cin cout : NT_Buffered_Socket) :
  smap_find start (buffered_sockets_in this) = Some ain ->
  w_heap w !! ain = Some cin ->
  smap_find dname (buffered_sockets_out dest) = Some aout ->
  w_heap w !! aout = Some cout ->
  supported (get_datatype cin) = true ->
  get_datatype cin <> get_datatype cout ->
  exists e, bind this start dest dname w = (Throw e, w)
            /\ error_kind e = TypeMismatch.
Proof.
  intros Hin Hcin Hout Hcout Hsup Hne.
  rewrite (bind_dispatch _ _ dest dname _ _ _ Hin Hcin), Hsup.
  unfold bind_by_type.
  rewrite (bindM_Ok _ _ w ain w).
  - unfold bindM.
    rewrite (get_buffered_socket_out_run _ _ _ _ _ _ Hsup Hout Hcout).
    rewrite bool_decide_eq_false_2 by congruence. eauto.
  - rewrite (get_buffered_socket_in_run _ _ _ _ _ _ Hsup Hin Hcin).
    now rewrite bool_decide_eq_true_2.
Qed.

Lemma bind_type_mismatch_witness :
  exists e, bind ex_mod_block "X_N1" ex_mod_block "X_N2" ex_wired = (Throw e, ex_wired)
            /\ error_kind e = TypeMismatch.
Proof.
  apply (bind_type_mismatch ex_mod_block ex_mod_block "X_N1" "X_N2" ex_wired
           21 23 ex_mod_in
           (default ex_no_channel (w_heap ex_wired !! 23))).
  - reflexivity.
  - vm_compute. reflexivity.
  - reflexivity.
  - vm_compute. reflexivity.
  - reflexivity.
  - vm_compute. discriminate.
Defined.

(** C2 as stated does not hold.  The encoder stage (producer of [X_N]) is
    asked to bind its output [X_N] to the input [X_N1] of the modulator stage:
    both channels exist and carry [int32], and yet the call throws, because
    [bind] looks [X_N] up among the inputs of the encoder stage. *)
Lemma bind_output_to_input_fails :
  smap_find "X_N" (buffered_sockets_out ex_enc_block) = Some 16
  /\ w_heap ex_wired !! 16 = Some ex_enc_out
  /\ smap_find "X_N1" (buffered_sockets_in ex_mod_block) = Some 21
  /\ w_heap ex_wired !! 21 = Some ex_mod_in
  /\ get_datatype ex_enc_out = ty_int32
  /\ get_datatype ex_mod_in = ty_int32
  /\ bind ex_enc_block "X_N" ex_mod_block "X_N1" ex_wired
     = (Throw (runtime_error "bind" (msg_count_positive dir_in "X_N" 0)), ex_wired)
  /\ ~ bind_output_to_input.
Proof.
  assert (H16 : w_heap ex_wired !! 16 = Some ex_enc_out) by (vm_compute; reflexivity).
  assert (H21 : w_heap ex_wired !! 21 = Some ex_mod_in) by (vm_compute; reflexivity).
  assert (Hb : bind ex_enc_block "X_N" ex_mod_block "X_N1" ex_wired
               = (Throw (runtime_error "bind" (msg_count_positive dir_in "X_N" 0)),
                  ex_wired)) by reflexivity.
  split_and!; try reflexivity; try assumption.
  intros Hspec.
  destruct (Hspec ex_enc_block ex_mod_block "X_N" "X_N1" ex_wired 16 21
              ex_enc_out ex_mod_in eq_refl H16 eq_refl H21 eq_refl eq_refl)
    as (w' & cin' & E & _).
  rewrite Hb in E. discriminate E.
Qed.

Lemma Buffered_Socket_bind_run sin sout cin cout w :
  w_heap w !! sin = Some cin ->
  w_heap w !! sout = Some cout ->
  Buffered_Socket_bind sin sout w =
  (Ok tt, mkWorld (w_next w) (<[sin := bound_to cin cout]> (w_heap w)) (w_rings w)
                  (w_log w ++ [EvBind sin sout]) (w_env w)).
Proof.
  intros Hin Hout. unfold Buffered_Socket_bind.
  rewrite (bindM_Ok _ _ _ _ _ (deref_run _ _ _ Hin)).
  rewrite (bindM_Ok _ _ _ _ _ (deref_run _ _ _ Hout)).
  reflexivity.
Qed.

(** C2, amended to the roles the code gives the two blocks: [bind] looks the
    first name up among the INPUT channels of the calling block and the second
    among the OUTPUT channels of the other block; when both exist with one
    supported element type it succeeds, and the calling block's input channel
    then uses the ring buffer of the other block's output channel (nothing
    else changes but the log), so that a frame pushed through that output
    channel is what a pop through the calling block's input channel gets,
    oldest first. *)
Theorem bind_connects_input_to_output (this dest : Block) (start dname : string)
    (w : World) (ain aout : nat) (cin cout : NT_Buffered_Socket) :
  smap_find start (buffered_sockets_in this) = Some ain ->
  w_heap w !! ain = Some cin ->
  smap_find dname (buffered_sockets_out dest) = Some aout ->
  w_heap w !! aout = Some cout ->
  supported (get_datatype cin) = true ->
  get_datatype cin = get_datatype cout ->
  exists w',
    bind this start dest dname w = (Ok tt, w')
    /\ w_heap w' = <[ain := bound_to cin cout]> (w_heap w)
    /\ w_rings w' = w_rings w
    /\ w_log w' = w_log w ++ [EvBind ain aout]
    /\ (forall (x : frame) (q : list frame),
          w_rings w !! bs_buffer cout = Some q ->
          (N.of_nat (length q) < bs_capacity cout)%N ->
          exists w1 w2,
            Buffered_Socket_push aout x w' = (Ok true, w1)
            /\ Buffered_Socket_pop ain w1 = (Ok (Some (hd x q)), w2)).
Proof.
  intros Hin Hcin Hout Hcout Hsup Heq.
  rewrite (bind_dispatch _ _ dest dname _ _ _ Hin Hcin), Hsup.
  unfold bind_by_type.
  rewrite (bindM_Ok _ _ w ain w).
  2:{ rewrite (get_buffered_socket_in_run _ _ _ _ _ _ Hsup Hin Hcin).
      now rewrite bool_decide_eq_true_2. }
  rewrite (bindM_Ok _ _ w aout w).
  2:{ rewrite (get_buffered_socket_out_run _ _ _ _ _ _ Hsup Hout Hcout).
      now rewrite bool_decide_eq_true_2. }
  rewrite (Buffered_Socket_bind_run _ _ _ _ _ Hcin Hcout).
  eexists. split; [reflexivity|]. simpl. split_and!; try reflexivity.
  intros x q Hq Hcap.
  (* the output channel as the heap now has it *)
  assert (Hout' : exists c, (<[ain := bound_to cin cout]> (w_heap w)) !! aout = Some c
                            /\ bs_buffer c = bs_buffer cout
                            /\ bs_capacity c = bs_capacity cout).
  { destruct (decide (ain = aout)) as [->|Hne].
    - rewrite lookup_insert_eq. eexists. split; [reflexivity|].
      assert (cin = cout) by congruence. subst. auto.
    - rewrite lookup_insert_ne by assumption. eauto. }
  destruct Hout' as (c & Hc & Hbuf & Hcapc).
  assert (Hpush : exists w1,
             Buffered_Socket_push aout x
               (mkWorld (w_next w) (<[ain := bound_to cin cout]> (w_heap w))
                        (w_rings w) (w_log w ++ [EvBind ain aout]) (w_env w))
             = (Ok true, w1)
             /\ w_heap w1 !! ain = Some (bound_to cin cout)
             /\ w_rings w1 !! bs_buffer cout = Some (q ++ [x])).
  { eexists. split.
    - unfold Buffered_Socket_push.
      erewrite bindM_Ok; [|apply deref_run; exact Hc].
      unfold get_ring, bindM at 1. simpl. rewrite Hbuf, Hq, Hcapc.
      destruct (N.ltb_spec (N.of_nat (length q)) (bs_capacity cout)); [|lia].
      reflexivity.
    - simpl. now rewrite !lookup_insert_eq. }
  destruct Hpush as (w1 & Epush & Hh1 & Hr1).
  exists w1. unfold Buffered_Socket_pop.
  rewrite (bindM_Ok _ _ _ _ _ (deref_run _ _ _ Hh1)).
  unfold get_ring, bindM at 1. simpl. rewrite Hr1.
  destruct q; simpl; eexists; (split; [exact Epush|reflexivity]).
Qed.

Lemma bind_connects_input_to_output_witness :
  exists w',
    bind ex_mod_block "X_N1" ex_enc_block "X_N" ex_wired = (Ok tt, w')
    /\ w_heap w' = <[21 := bound_to ex_mod_in ex_enc_out]> (w_heap ex_wired)
    /\ exists w1 w2,
         Buffered_Socket_push 16 [3%Z] w' = (Ok true, w1)
         /\ Buffered_Socket_pop 21 w1 = (Ok (Some [3%Z]), w2).
Proof.
  destruct (bind_connects_input_to_output ex_mod_block ex_enc_block "X_N1" "X_N"
              ex_wired 21 16 ex_mod_in ex_enc_out
              eq_refl ltac:(vm_compute; reflexivity)
              eq_refl ltac:(vm_compute; reflexivity) eq_refl eq_refl)
    as (w' & E & Hheap & _ & _ & Hvis).
  exists w'. split; [exact E|]. split; [exact Hheap|].
  apply (Hvis [3%Z] []).
  - vm_compute. reflexivity.
  - vm_compute. reflexivity.
Defined.

(** C10: when an endpoint of the template has an element type outside the
    six kinds, construction still succeeds (no error is raised; the arguments
    pass the two tests and the thread count is within reach of the [int] loop
    counters) and makes no channel for it: its name is in neither channel map of the block (names
    being unique within a task), the block holds channels for the supported
    endpoints only, and no [bind] naming it can succeed, whether on the block
    itself or with the block as the other side. *)
Theorem Block_ctor_skips_unsupported (task : Task) (bs nt : N) (w : World)
    (j : nat) (s : Socket) :
  (1 <= nt)%N -> (nt <= bs)%N -> (nt <= INT_MAX)%N ->
  NoDup (map sck_name (tk_sockets task)) ->
  tk_sockets task !! j = Some s ->
  supported (sck_datatype s) = false ->
  exists b w',
    Block_ctor task bs nt w = (Ok b, w')
    /\ smap_find (sck_name s) (buffered_sockets_in b) = None
    /\ smap_find (sck_name s) (buffered_sockets_out b) = None
    /\ length (buffered_sockets_in b) + length (buffered_sockets_out b)
       = length (List.filter is_supported_socket (tk_sockets task))
    /\ (forall other nm w2,
          exists e, bind b (sck_name s) other nm w2 = (Throw e, w2)
                    /\ error_kind e = NotFound)
    /\ (forall other nm w2 w3, bind other nm b (sck_name s) w2 <> (Ok tt, w3)).
Proof.
  intros Hnt Hbs Hint Hnodup Hs Hsup.
  destruct (Block_ctor_run task bs nt w) as (b & w' & E & Hpost);
    [lia|assumption|assumption|].
  exists b, w'. split; [exact E|].
  destruct Hpost as [_ _ _ _ _ _ _ Hsound Hcomplete].
  assert (Habsent : forall d, smap_find (sck_name s) (channels d b) = None).
  { intros d. destruct (smap_find _ _) as [a|] eqn:Hfind; [|reflexivity].
    rewrite <- pick_channels in Hfind.
    destruct (Hsound _ _ _ Hfind) as (_ & j' & s' & _ & _ & Hs' & Hname & _ & Hsup' & _).
    pose proof (unique_name_index _ _ _ _ _ Hnodup Hs' Hs Hname) as ->.
    assert (s' = s) by congruence. subst s'.
    unfold is_supported_socket in Hsup'. congruence. }
  pose proof (Habsent dir_in) as Hin. pose proof (Habsent dir_out) as Hout.
  simpl in Hin, Hout. split_and!; auto.
  - destruct (Hcomplete Hnodup) as [_ Hcount].
    unfold entries_counted in Hcount. simpl in Hcount.
    now rewrite take_ge in Hcount by lia.
  - intros other nm w2. rewrite (bind_absent _ _ _ _ _ Hin). eauto.
  - intros other nm w2 w3. now apply bind_absent_out.
Qed.

Lemma Block_ctor_skips_unsupported_witness :
  exists b w',
    Block_ctor ex_encoder 2 2 ex_world = (Ok b, w')
    /\ smap_find "aux" (buffered_sockets_in b) = None
    /\ smap_find "aux" (buffered_sockets_out b) = None
    /\ length (buffered_sockets_in b) + length (buffered_sockets_out b) = 2.
Proof.
  destruct (Block_ctor_skips_unsupported ex_encoder 2 2 ex_world 2
              (mkSocket 1 "aux" (ty_other 0) 8 SOUT))
    as (b & w' & E & Hin & Hout & Hcount & _).
  - lia.
  - lia.
  - unfold INT_MAX. lia.
  - apply (bool_decide_unpack _). vm_compute. exact I.
  - reflexivity.
  - reflexivity.
  - exists b, w'. split; [exact E|]. split; [exact Hin|]. split; [exact Hout|].
    exact Hcount.
Defined.

(** ** The worker loop *)

Lemma steps_refl w : steps w [] w.
Proof. unfold steps. now rewrite app_nil_r. Qed.

Lemma steps_trans w t1 w1 t2 w2 :
  steps w t1 w1 -> steps w1 t2 w2 -> steps w (t1 ++ t2) w2.
Proof.
  unfold steps. intros (H1 & H2 & H3 & H4) (H5 & H6 & H7 & H8).
  rewrite H5, H1, app_assoc. split_and!; congruence.
Qed.

Lemma ask_emit_inv (ev : bool -> event) w r w' :
  (let! b := ask in do! emit (ev b) in ret b) w = (Ok r, w') ->
  steps w [ev r] w'.
Proof.
  unfold bindM, ask, emit, ret. destruct (w_env w) as [|b env]; [discriminate|].
  intros [= <- <-]. unfold steps. simpl. auto.
Qed.

Lemma is_done_inv w r w' : is_done w = (Ok r, w') -> steps w [EvIsDone r] w'.
Proof. apply (ask_emit_inv EvIsDone). Qed.

Lemma pop_inv a tid w r w' : pop a tid w = (Ok r, w') -> steps w [EvPop a tid r] w'.
Proof. apply (ask_emit_inv (EvPop a tid)). Qed.

Lemma push_inv a tid w r w' : push a tid w = (Ok r, w') -> steps w [EvPush a tid r] w'.
Proof. apply (ask_emit_inv (EvPush a tid)). Qed.

(** A polling loop makes only reads of the flag and calls of its own. *)
Lemma spin_log (P : event -> bool) (op : M bool) :
  (forall b, P (EvIsDone b) = true) ->
  (forall w r w', op w = (Ok r, w') ->
     exists e, P e = true /\ steps w [e] w') ->
  forall fuel w w',
    spin fuel op w = (Ok tt, w') ->
    exists tr, steps w tr w' /\ forallb P tr = true.
Proof.
  intros Hflag Hop. induction fuel as [|fuel IH]; intros w w' H; [discriminate|].
  simpl in H. apply bindM_inv_Ok in H as (done & w1 & Hd & H).
  apply is_done_inv in Hd. destruct done.
  - injection H as <-. exists [EvIsDone true]. split; [assumption|].
    simpl. now rewrite Hflag.
  - apply bindM_inv_Ok in H as (r & w2 & Hr & H).
    destruct (Hop _ _ _ Hr) as (e & He & Hstep).
    destruct r.
    + destruct (IH _ _ H) as (tr & Htr & HP).
      exists ([EvIsDone false] ++ [e] ++ tr). split.
      * eapply steps_trans; [eassumption|]. eapply steps_trans; eassumption.
      * simpl. now rewrite Hflag, He.
    + injection H as <-. exists ([EvIsDone false] ++ [e]). split.
      * eapply steps_trans; eassumption.
      * simpl. now rewrite Hflag, He.
Qed.

Lemma for_each_log (P : event -> bool) (body : nat -> M unit) :
  forall m,
    (forall k a w w', In (k, a) m -> body a w = (Ok tt, w') ->
       exists tr, steps w tr w' /\ forallb P tr = true) ->
    forall w w',
      for_each m body w = (Ok tt, w') ->
      exists tr, steps w tr w' /\ forallb P tr = true.
Proof.
  induction m as [|[k a] m IH]; intros Hbody w w' H; simpl in H.
  - injection H as <-. exists []. split; [apply steps_refl|reflexivity].
  - apply bindM_inv_Ok in H as ([] & w1 & H1 & H).
    destruct (Hbody k a w w1) as (t1 & Hs1 & HP1); [now left|assumption|].
    destruct (IH) with (w := w1) (w' := w') as (t2 & Hs2 & HP2).
    + intros k' a' v v' Hin. apply (Hbody k'). now right.
    + exact H.
    + exists (t1 ++ t2). split.
      * eapply steps_trans; eassumption.
      * now rewrite forallb_app, HP1, HP2.
Qed.

Lemma forallb_weaken {A} (P Q : A -> bool) (l : list A) :
  (forall x, P x = true -> Q x = true) -> forallb P l = true -> forallb Q l = true.
Proof.
  intros HPQ. induction l as [|x l IH]; simpl; [reflexivity|].
  intros H. apply andb_prop in H as [Hx Hl]. now rewrite (HPQ _ Hx), IH.
Qed.

Lemma holds_address (m : smap) k a :
  In (k, a) m -> existsb (Nat.eqb a) (map snd m) = true.
Proof.
  intros Hin. apply existsb_exists. exists a. split.
  - apply in_map_iff. now exists (k, a).
  - apply Nat.eqb_refl.
Qed.

Lemma pops_log fuel this tid w w' :
  for_each (buffered_sockets_in this) (fun it => spin fuel (pop it tid)) w = (Ok tt, w') ->
  exists tr, steps w tr w' /\ forallb (pop_phase this tid) tr = true.
Proof.
  apply for_each_log. intros k a v v' Hin. apply spin_log; [reflexivity|].
  intros u r u' Hpop. exists (EvPop a tid r). split; [|now apply pop_inv].
  simpl. now rewrite N.eqb_refl, (holds_address _ _ _ Hin).
Qed.

Lemma pushes_log fuel this tid w w' :
  for_each (buffered_sockets_out this) (fun it => spin fuel (push it tid)) w = (Ok tt, w') ->
  exists tr, steps w tr w' /\ forallb (push_phase this tid) tr = true.
Proof.
  apply for_each_log. intros k a v v' Hin. apply spin_log; [reflexivity|].
  intros u r u' Hpush. exists (EvPush a tid r). split; [|now apply push_inv].
  simpl. now rewrite N.eqb_refl, (holds_address _ _ _ Hin).
Qed.

Lemma iteration_inv fuel this tid w f w' :
  iteration fuel this tid w = (Ok f, w') ->
  exists pops done, iteration_shape this tid w f w' pops done.
Proof.
  unfold iteration. intros H.
  apply bindM_inv_Ok in H as ([] & w1 & Hpops & H).
  apply pops_log in Hpops as (pops & Hs1 & HP1).
  apply bindM_inv_Ok in H as (done & w2 & Hd & H).
  apply is_done_inv in Hd.
  exists pops, done. split; [assumption|]. destruct done.
  - injection H as <- <-. split; [reflexivity|]. eapply steps_trans; eassumption.
  - apply bindM_inv_Ok in H as (t & w3 & Ht & H).
    unfold at_index in Ht. destruct (tasks this !! N.to_nat tid) as [t'|] eqn:Et;
      [|discriminate]. injection Ht as -> <-.
    apply bindM_inv_Ok in H as ([] & w4 & Hexec & H).
    injection Hexec as <-.
    apply bindM_inv_Ok in H as ([] & w5 & Hpushes & H).
    injection H as <- <-.
    apply pushes_log in Hpushes as (pushes & Hs2 & HP2).
    split; [reflexivity|]. exists t, pushes. split_and!; auto.
    eapply steps_trans; [eassumption|].
    change ([EvIsDone false; EvExec (tk_id t)] ++ pushes)
      with ([EvIsDone false] ++ [EvExec (tk_id t)] ++ pushes).
    eapply steps_trans; [eassumption|].
    eapply steps_trans; [|eassumption].
    unfold steps. simpl. auto.
Qed.

Lemma pop_phase_quiet this tid e :
  pop_phase this tid e = true -> is_exec e = false /\ is_stop e = false.
Proof. destruct e; simpl; auto; discriminate. Qed.

Lemma push_phase_quiet this tid e :
  push_phase this tid e = true -> is_exec e = false /\ is_stop e = false.
Proof. destruct e; simpl; auto; discriminate. Qed.

Lemma filter_none {A} (P : A -> bool) (l : list A) :
  forallb (fun x => negb (P x)) l = true -> List.filter P l = [].
Proof.
  induction l as [|x l IH]; simpl; [reflexivity|].
  intros H. apply andb_prop in H as [Hx Hl].
  destruct (P x); [discriminate|]. now apply IH.
Qed.

(** The loop, when it ends, has made no [stop] call, and the last thing it
    did was to read the stop flag as set. *)
Lemma main_loop_log this tid :
  forall fuel w w',
    main_loop fuel this tid w = (Ok tt, w') ->
    exists tr,
      steps w (tr ++ [EvIsDone true]) w'
      /\ forallb (fun e => negb (is_stop e)) tr = true.
Proof.
  induction fuel as [|fuel IH]; intros w w' H; [discriminate|].
  simpl in H. apply bindM_inv_Ok in H as (done & w1 & Hd & H).
  apply is_done_inv in Hd. destruct done.
  - injection H as <-. exists []. auto.
  - apply bindM_inv_Ok in H as (f & w2 & Hit & H).
    apply iteration_inv in Hit as (pops & done & HP & Hshape).
    assert (Hpops : forallb (fun e => negb (is_stop e)) pops = true).
    { revert HP. apply forallb_weaken. intros e He.
      now rewrite (proj2 (pop_phase_quiet _ _ _ He)). }
    destruct done.
    + destruct Hshape as [-> Hs]. injection H as <-.
      exists ([EvIsDone false] ++ pops). split.
      * rewrite <- app_assoc. eapply steps_trans; eassumption.
      * simpl. assumption.
    + destruct Hshape as (-> & t & pushes & _ & HQ & Hs).
      destruct (IH _ _ H) as (tr & Htr & Hquiet).
      exists ([EvIsDone false] ++ (pops ++ [EvIsDone false; EvExec (tk_id t)] ++ pushes)
              ++ tr).
      split.
      * rewrite <- !app_assoc. eapply steps_trans; [eassumption|].
        rewrite !app_assoc. rewrite <- (app_assoc _ tr).
        eapply steps_trans; [|eassumption].
        now rewrite <- !app_assoc.
      * simpl. rewrite !forallb_app, Hpops, Hquiet. simpl.
        rewrite andb_true_r. revert HQ. apply forallb_weaken. intros e He.
        now rewrite (proj2 (push_phase_quiet _ _ _ He)).
Qed.

Lemma for_each_stop_run m w :
  for_each m stop w =
  (Ok tt, mkWorld (w_next w) (w_heap w) (w_rings w)
                  (w_log w ++ map EvStop (map snd m)) (w_env w)).
Proof.
  revert w. induction m as [|[k a] m IH]; intros w; simpl.
  - unfold ret. destruct w. simpl. now rewrite app_nil_r.
  - unfold bindM, stop, emit. rewrite IH. simpl. now rewrite <- app_assoc.
Qed.

Lemma stop_all_run this w :
  stop_all this w =
  (Ok tt, mkWorld (w_next w) (w_heap w) (w_rings w)
                  (w_log w ++ stop_calls this) (w_env w)).
Proof.
  unfold stop_all, bindM. rewrite !for_each_stop_run. simpl.
  unfold stop_calls. now rewrite app_assoc.
Qed.

(** The loop budget only decides how long the model follows the thread: a
    run that ends within a budget ends the same way within any larger one. *)
Lemma spin_fuel_mono (op : M bool) :
  forall fuel fuel' w w',
    fuel <= fuel' ->
    spin fuel op w = (Ok tt, w') -> spin fuel' op w = (Ok tt, w').
Proof.
  induction fuel as [|fuel IH]; intros fuel' w w' Hle H; [discriminate|].
  destruct fuel' as [|fuel']; [lia|]. simpl in *. unfold bindM in *.
  destruct (is_done w) as [[done| | |] w1]; try discriminate.
  destruct done; [exact H|].
  destruct (op w1) as [[r| | |] w2]; try discriminate.
  destruct r; [|exact H]. apply (IH fuel'); [lia|exact H].
Qed.

Lemma for_each_mono (body body' : nat -> M unit) :
  (forall a w w', body a w = (Ok tt, w') -> body' a w = (Ok tt, w')) ->
  forall m w w',
    for_each m body w = (Ok tt, w') -> for_each m body' w = (Ok tt, w').
Proof.
  intros Hbody. induction m as [|[k a] m IH]; intros w w' H; simpl in *; [exact H|].
  apply bindM_inv_Ok in H as ([] & w1 & H1 & H).
  rewrite (bindM_Ok _ _ _ _ _ (Hbody _ _ _ H1)). now apply IH.
Qed.

Lemma iteration_fuel_mono this tid fuel fuel' w f w' :
  fuel <= fuel' ->
  iteration fuel this tid w = (Ok f, w') -> iteration fuel' this tid w = (Ok f, w').
Proof.
  intros Hle H. unfold iteration in *.
  apply bindM_inv_Ok in H as ([] & w1 & Hpops & H).
  assert (Hpops' : for_each (buffered_sockets_in this)
                     (fun it => spin fuel' (pop it tid)) w = (Ok tt, w1)).
  { revert Hpops. apply for_each_mono. intros a v v'. now apply spin_fuel_mono. }
  rewrite (bindM_Ok _ _ _ _ _ Hpops').
  apply bindM_inv_Ok in H as (done & w2 & Hd & H).
  rewrite (bindM_Ok _ _ _ _ _ Hd). destruct done; [exact H|].
  apply bindM_inv_Ok in H as (t & w3 & Ht & H). rewrite (bindM_Ok _ _ _ _ _ Ht).
  apply bindM_inv_Ok in H as ([] & w4 & Hexec & H). rewrite (bindM_Ok _ _ _ _ _ Hexec).
  apply bindM_inv_Ok in H as ([] & w5 & Hpushes & H).
  assert (Hpushes' : for_each (buffered_sockets_out this)
                       (fun it => spin fuel' (push it tid)) w4 = (Ok tt, w5)).
  { revert Hpushes. apply for_each_mono. intros a v v'. now apply spin_fuel_mono. }
  now rewrite (bindM_Ok _ _ _ _ _ Hpushes').
Qed.

Lemma main_loop_fuel_mono this tid :
  forall fuel fuel' w w',
    fuel <= fuel' ->
    main_loop fuel this tid w = (Ok tt, w') -> main_loop fuel' this tid w = (Ok tt, w').
Proof.
  induction fuel as [|fuel IH]; intros fuel' w w' Hle H; [discriminate|].
  destruct fuel' as [|fuel']; [lia|]. simpl in *.
  apply bindM_inv_Ok in H as (done & w1 & Hd & H).
  rewrite (bindM_Ok _ _ _ _ _ Hd). destruct done; [exact H|].
  apply bindM_inv_Ok in H as (f & w2 & Hit & H).
  rewrite (bindM_Ok _ _ _ _ _ (iteration_fuel_mono _ _ fuel fuel' _ _ _ ltac:(lia) Hit)).
  destruct f; [|exact H]. apply (IH fuel'); [lia|exact H].
Qed.

Lemma execute_task_fuel_mono this tid fuel fuel' w w' :
  fuel <= fuel' ->
  execute_task fuel this tid w = (Ok tt, w') ->
  execute_task fuel' this tid w = (Ok tt, w').
Proof.
  intros Hle H. unfold execute_task in *.
  apply bindM_inv_Ok in H as ([] & w1 & Hloop & H).
  now rewrite (bindM_Ok _ _ _ _ _ (main_loop_fuel_mono _ _ _ _ _ _ Hle Hloop)).
Qed.

(** A thread that reads the flag as set at the head of its loop leaves the
    loop at once and returns after the [stop] calls. *)
Lemma execute_task_returns_when_done this tid fuel w env :
  w_env w = true :: env ->
  execute_task (Datatypes.S fuel) this tid w =
  (Ok tt, mkWorld (w_next w) (w_heap w) (w_rings w)
                  (w_log w ++ [EvIsDone true] ++ stop_calls this) env).
Proof.
  intros Henv. unfold execute_task. simpl.
  unfold bindM at 2, is_done, bindM, ask, emit, ret. rewrite Henv. simpl.
  rewrite stop_all_run. simpl. now rewrite <- app_assoc.
Qed.

(** C3: in every pass of the loop body, the thread first polls its inputs
    (reads of the flag and pops only), then reads the stop flag.  If it reads
    it set, the pass ends in [break]: no [exec] was called in the pass, and
    the loop returns at once.  Otherwise the thread calls [exec] of its own
    replica exactly once, on its own thread (the call is part of the pass),
    before any push, and the loop goes on to the next pass. *)
Theorem iteration_exec_once (fuel : nat) (this : Block) (tid : N) (w w' : World)
    (f : flow) :
  iteration fuel this tid w = (Ok f, w') ->
  exists (pops : list event) (done : bool) (tr : list event),
    forallb (pop_phase this tid) pops = true
    /\ w_log w' = w_log w ++ tr
    /\ length (List.filter is_exec tr) = (if done then 0 else 1)
    /\ (if done
        then f = Break /\ tr = pops ++ [EvIsDone true]
        else f = Continue
             /\ exists t pushes,
                  tasks this !! N.to_nat tid = Some t
                  /\ forallb (push_phase this tid) pushes = true
                  /\ tr = pops ++ [EvIsDone false; EvExec (tk_id t)] ++ pushes)
    /\ (forall w0,
          is_done w0 = (Ok false, w) ->
          main_loop (Datatypes.S fuel) this tid w0
          = if done then (Ok tt, w') else main_loop fuel this tid w').
Proof.
  intros H. destruct (iteration_inv _ _ _ _ _ _ H) as (pops & done & HP & Hshape).
  assert (Hquiet : List.filter is_exec pops = []).
  { apply filter_none. revert HP. apply forallb_weaken. intros e He.
    now rewrite (proj1 (pop_phase_quiet _ _ _ He)). }
  assert (Hloop : forall w0,
             is_done w0 = (Ok false, w) ->
             main_loop (Datatypes.S fuel) this tid w0
             = match f with
               | Break => (Ok tt, w')
               | Continue => main_loop fuel this tid w'
               end).
  { intros w0 Hd. simpl. rewrite (bindM_Ok _ _ _ _ _ Hd), (bindM_Ok _ _ _ _ _ H).
    now destruct f. }
  exists pops, done. destruct done.
  - destruct Hshape as (-> & Hlog & _). eexists. split_and!; eauto.
    rewrite List.filter_app, Hquiet. reflexivity.
  - destruct Hshape as (-> & t & pushes & Ht & HQ & Hlog & _).
    eexists. split_and!; eauto.
    rewrite !List.filter_app, Hquiet. simpl. f_equal.
    rewrite filter_none; [reflexivity|].
    revert HQ. apply forallb_weaken. intros e He.
    now rewrite (proj1 (push_phase_quiet _ _ _ He)).
Qed.

Lemma iteration_exec_once_witness :
  (exists pops,
      forallb (pop_phase ex_enc_block 0) pops = true
      /\ w_log ex_pass_stopped = [EvIsDone false] ++ pops ++ [EvIsDone true]
      /\ length (List.filter is_exec (pops ++ [EvIsDone true])) = 0
      /\ main_loop 4 ex_enc_block 0 ex_loop_world_stopped = (Ok tt, ex_pass_stopped))
  /\ (exists pops t pushes,
        forallb (pop_phase ex_enc_block 0) pops = true
        /\ tasks ex_enc_block !! 0 = Some t
        /\ forallb (push_phase ex_enc_block 0) pushes = true
        /\ w_log ex_pass
           = [EvIsDone false] ++ pops ++ [EvIsDone false; EvExec (tk_id t)] ++ pushes
        /\ length (List.filter is_exec
                     (pops ++ [EvIsDone false; EvExec (tk_id t)] ++ pushes)) = 1
        /\ main_loop 4 ex_enc_block 0 ex_loop_world
           = main_loop 3 ex_enc_block 0 ex_pass).
Proof.
  split.
  - assert (E : iteration 3 ex_enc_block 0 ex_thread_world_stopped
                 = (Ok Break, ex_pass_stopped)) by (vm_compute; reflexivity).
    destruct (iteration_exec_once 3 ex_enc_block 0 ex_thread_world_stopped
                ex_pass_stopped Break E)
      as (pops & done & tr & HP & Hlog & Hn & Hshape & Hloop).
    destruct done; [|destruct Hshape as [Hf _]; discriminate Hf].
    destruct Hshape as [_ ->]. exists pops.
    split; [exact HP|]. split; [exact Hlog|]. split; [exact Hn|].
    apply (Hloop ex_loop_world_stopped). reflexivity.
  - assert (E : iteration 3 ex_enc_block 0 ex_thread_world = (Ok Continue, ex_pass))
      by (vm_compute; reflexivity).
    destruct (iteration_exec_once 3 ex_enc_block 0 ex_thread_world
                ex_pass Continue E)
      as (pops & done & tr & HP & Hlog & Hn & Hshape & Hloop).
    destruct done; [destruct Hshape as [Hf _]; discriminate Hf|].
    destruct Hshape as (_ & t & pushes & Ht & HQ & ->). exists pops, t, pushes.
    split; [exact HP|]. split; [exact Ht|]. split; [exact HQ|].
    split; [exact Hlog|]. split; [exact Hn|].
    apply (Hloop ex_loop_world). reflexivity.
Defined.

(** C6: whenever the thread comes out of its loop, it has read the stop flag
    as set, has called no [stop] up to then, and goes on to call [stop] on
    every output channel of the block and then on every input channel of the
    block, in that order, and nothing else. *)
Theorem execute_task_stops_outputs_then_inputs (fuel : nat) (this : Block)
    (tid : N) (w w' : World) :
  execute_task fuel this tid w = (Ok tt, w') ->
  exists tr,
    w_log w' = w_log w ++ tr ++ [EvIsDone true]
               ++ map EvStop (map snd (buffered_sockets_out this))
               ++ map EvStop (map snd (buffered_sockets_in this))
    /\ forallb (fun e => negb (is_stop e)) tr = true.
Proof.
  unfold execute_task. intros H.
  apply bindM_inv_Ok in H as ([] & w1 & Hloop & Hstop).
  rewrite stop_all_run in Hstop. injection Hstop as <-.
  apply main_loop_log in Hloop as (tr & (Hlog & _) & Hquiet).
  exists tr. split; [|assumption]. simpl. rewrite Hlog. unfold stop_calls.
  now rewrite <- !app_assoc.
Qed.

Lemma execute_task_stops_outputs_then_inputs_witness :
  exists tr,
    w_log ex_run = tr ++ [EvIsDone true] ++ [EvStop 16] ++ [EvStop 14]
    /\ forallb (fun e => negb (is_stop e)) tr = true.
Proof.
  assert (E : execute_task 4 ex_enc_block 0 ex_loop_world = (Ok tt, ex_run))
    by (vm_compute; reflexivity).
  exact (execute_task_stops_outputs_then_inputs 4 ex_enc_block 0 ex_loop_world
           ex_run E).
Defined.

(** * Further properties *)

(** ** Construction *)

(** Whatever the socket loop of the constructor keeps from pass to pass
    holds of the maps of the block it builds.  A pass may rely on the channels
    filed so far being at addresses of their own. *)
Lemma Block_ctor_invariant (I : nat -> smap * smap -> World -> Prop)
    task bs nt w b w' :
  Block_ctor task bs nt w = (Ok b, w') ->
  I 0 ([], []) (after_clones task nt w) ->
  (forall i s maps v sv,
      tk_sockets task !! i = Some s ->
      slots_of (replicas task (w_next w) nt) i sv ->
      fresh_channels (after_clones task nt w) maps v ->
      I i maps v ->
      I (Datatypes.S i)
        (if is_supported_socket s
         then file_socket (sck_type s) (sck_name s) (Datatypes.S (w_next v)) maps
         else maps)
        (if is_supported_socket s
         then released (smap_find (sck_name s) (pick (dir_of (sck_type s)) maps))
                       (with_channel v (sck_datatype s) sv (sck_type s) bs)
         else v)) ->
  I (length (tk_sockets task)) (buffered_sockets_in b, buffered_sockets_out b) w'.
Proof.
  intros H H0 Hstep.
  destruct (Block_ctor_Ok_args _ _ _ _ _ _ H) as (_ & _ & Hint).
  pose proof INT_MAX_threads as Hmax.
  unfold Block_ctor in H.
  rewrite (bindM_Ok _ _ _ _ _ (new_threads_run nt w ltac:(lia))) in H.
  destruct (N.eqb_spec nt 0) as [|Hnt]; [discriminate H|].
  destruct (N.ltb_spec bs nt) as [|Hbs]; [discriminate H|].
  rewrite prototype_run, (for_int_run _ _ _ Hint),
    (bindM_Ok _ _ _ _ _ (clone_loop_run _ _ _ _ _)) in H.
  cbn [w_next w_heap w_rings w_log w_env tk_id prototype] in H.
  fold (replicas task (w_next w) nt) in H. rewrite !app_nil_l in H.
  fold (after_clones task nt w) in H.
  destruct (for_loop_invariant
              (fun i maps v =>
                 I i maps v /\ fresh_channels (after_clones task nt w) maps v)
              (add_buffered_socket task bs nt (replicas task (w_next w) nt))
              (length (tk_sockets task)) 0 ([], []) (after_clones task nt w))
    as (maps & w'' & E & HI & _).
  - split; [exact H0|apply fresh_channels_init].
  - intros i maps v [_ Hi] [HIv Hfresh].
    destruct (lookup_lt_is_Some_2 (tk_sockets task) i Hi) as [s Hs].
    destruct (add_buffered_socket_run task bs nt (replicas task (w_next w) nt)
                i maps v s) as (sv & Hsv & Eq); [assumption| | |assumption|].
    + now rewrite replicas_length.
    + intros j t Ht. apply replicas_lookup in Ht as [_ ->].
      rewrite (replica_socket _ _ _ _ _ Hs). eauto.
    + specialize (Hstep i s maps v sv Hs Hsv Hfresh HIv). rewrite Eq.
      unfold is_supported_socket in Hstep.
      destruct (supported (sck_datatype s)).
      * eexists; eexists; split; [reflexivity|]. split; [exact Hstep|].
        now apply fresh_channels_step.
      * eauto.
  - rewrite (bindM_Ok _ _ _ _ _ E) in H. injection H as <- <-.
    destruct maps. exact HI.
Qed.

Lemma filed_by_true d nm s :
  filed_by d nm s = true <->
  is_supported_socket s = true /\ dir_of (sck_type s) = d /\ sck_name s = nm.
Proof.
  unfold filed_by. rewrite !andb_true_iff, bool_decide_eq_true.
  destruct (String.eqb_spec (sck_name s) nm); intuition congruence.
Qed.

Lemma filed_by_false d nm s :
  filed_by d nm s = false <->
  ~ (is_supported_socket s = true /\ dir_of (sck_type s) = d /\ sck_name s = nm).
Proof.
  rewrite <- filed_by_true. destruct (filed_by d nm s); intuition congruence.
Qed.

Lemma Block_ctor_last_filed task bs nt w b w' :
  Block_ctor task bs nt w = (Ok b, w') ->
  last_filed task bs (tasks b) (length (tk_sockets task))
    (buffered_sockets_in b, buffered_sockets_out b) w'.
Proof.
  intros H.
  assert (Htasks : tasks b = replicas task (w_next w) nt).
  { apply Block_ctor_inv in H as (_ & _ & Hpost). apply Hpost. }
  rewrite Htasks.
  apply (Block_ctor_invariant
           (last_filed task bs (replicas task (w_next w) nt)) _ _ _ _ _ _ H).
  - intros d nm. destruct d; simpl; intros j s Hj; lia.
  - intros i s maps v sv Hs Hsv Hfresh Hinv d nm.
    destruct (is_supported_socket s) eqn:Hsup.
    + destruct (decide (d = dir_of (sck_type s) /\ nm = sck_name s)) as [[-> ->]|Hne].
      * rewrite pick_file_eq, released_next. simpl. split; [lia|].
        exists i, s, (mkBS (sck_datatype s) sv (sck_type s) bs (w_next v)).
        rewrite (new_entry_alive _ _ _ _ _ _ _ _ Hfresh). split_and!; auto.
        -- apply filed_by_true. auto.
        -- intros j' s' Hlt Hlt'. lia.
        -- now constructor.
      * assert (Hne' : d <> dir_of (sck_type s) \/ nm <> sck_name s)
          by (destruct (decide (d = dir_of (sck_type s))); [right|left]; tauto).
        rewrite pick_file_ne by assumption.
        assert (Hnot : filed_by d nm s = false).
        { apply filed_by_false. intros (_ & <- & <-). tauto. }
        specialize (Hinv d nm).
        destruct (smap_find nm (pick d maps)) as [a|] eqn:Hfind.
        -- destruct Hinv as (Ha & j & s0 & c & Hj & Hs0 & Hf & Hlast & Hheap & Hc).
           rewrite released_next. simpl. split; [lia|]. exists j, s0, c.
           rewrite (kept_entry_alive _ _ _ _ _ _ _ _ _ _ _ Hfresh Hne' Hfind).
           split_and!; auto.
           intros j' s' Hlt Hlt' Hs'. destruct (decide (j' = i)) as [->|].
           ++ congruence.
           ++ apply (Hlast j'); auto. lia.
        -- intros j s0 Hj Hs0. destruct (decide (j = i)) as [->|].
           ++ congruence.
           ++ apply (Hinv j); auto. lia.
    + assert (Hnot : filed_by d nm s = false).
      { apply filed_by_false. intros (Hs' & _). congruence. }
      specialize (Hinv d nm). destruct (smap_find nm (pick d maps)) as [a|].
      * destruct Hinv as (Ha & j & s0 & c & Hj & Hs0 & Hf & Hlast & Hheap & Hc).
        split; [assumption|]. exists j, s0, c. split_and!; auto.
        intros j' s' Hlt Hlt' Hs'. destruct (decide (j' = i)) as [->|].
        -- congruence.
        -- apply (Hlast j'); auto. lia.
      * intros j s0 Hj Hs0. destruct (decide (j = i)) as [->|].
        -- congruence.
        -- apply (Hinv j); auto. lia.
Qed.

(** X1: for any template, duplicate names included, a name is in a channel
    map of the built block exactly when the template has a socket of that
    direction and name with one of the six element types, and the entry is
    the channel made for the LAST such socket: a later socket of the same name
    and direction replaces the channel of an earlier one. *)
Theorem Block_ctor_last_socket_wins (task : Task) (bs nt : N) (w w' : World)
    (b : Block) (d : sck_dir) (nm : string) :
  Block_ctor task bs nt w = (Ok b, w') ->
  match smap_find nm (channels d b) with
  | Some a =>
      exists j s c,
        tk_sockets task !! j = Some s /\ filed_by d nm s = true
        /\ (forall j' s', j < j' -> tk_sockets task !! j' = Some s' ->
                          filed_by d nm s' = false)
        /\ w_heap w' !! a = Some c
        /\ get_datatype c = sck_datatype s
        /\ bs_capacity c = bs
        /\ slots_of (tasks b) j (bs_sockets c)
  | None =>
      forall j s, tk_sockets task !! j = Some s -> filed_by d nm s = false
  end.
Proof.
  intros H. pose proof (Block_ctor_last_filed _ _ _ _ _ _ H d nm) as Hinv.
  rewrite pick_channels in Hinv.
  destruct (smap_find nm (channels d b)) as [a|].
  - destruct Hinv as (_ & j & s & c & Hj & Hs & Hf & Hlast & Hheap & Hc).
    destruct Hc. exists j, s, c. split_and!; auto.
    intros j' s' Hlt Hs'. apply (Hlast j'); auto.
    apply lookup_lt_is_Some. eauto.
  - intros j s Hs. apply (Hinv j); auto. apply lookup_lt_is_Some. eauto.
Qed.

Lemma ex_twin_block_built :
  Block_ctor ex_twin 1 1 ex_world = (Ok ex_twin_block, ex_twin_world).
Proof. vm_compute. reflexivity. Qed.

Lemma Block_ctor_last_socket_wins_witness :
  exists j s c,
    tk_sockets ex_twin !! j = Some s
    /\ filed_by dir_in "X" s = true
    /\ w_heap ex_twin_world !! 15 = Some c
    /\ get_datatype c = ty_double.
Proof.
  pose proof (Block_ctor_last_socket_wins ex_twin 1 1 ex_world ex_twin_world
                ex_twin_block dir_in "X" ex_twin_block_built) as H.
  assert (Hfind : smap_find "X" (channels dir_in ex_twin_block) = Some 15)
    by reflexivity.
  rewrite Hfind in H.
  destruct H as (j & s & c & Hs & Hf & Hlast & Hheap & Hdt & _).
  exists j, s, c. split; [exact Hs|]. split; [exact Hf|]. split; [exact Hheap|].
  rewrite Hdt.
  destruct j as [|[|[|j]]]; cbn in Hs.
  - pose proof (Hlast 1 (mkSocket 3 "X" ty_double 4 SIN) ltac:(lia) eq_refl) as Habs.
    discriminate Habs.
  - injection Hs as <-. reflexivity.
  - injection Hs as <-. discriminate Hf.
  - discriminate Hs.
Defined.

Lemma Block_ctor_fresh task bs nt w b w' :
  Block_ctor task bs nt w = (Ok b, w') ->
  fresh_channels w (buffered_sockets_in b, buffered_sockets_out b) w'.
Proof.
  intros H.
  assert (Hloop : fresh_channels (after_clones task nt w)
                    (buffered_sockets_in b, buffered_sockets_out b) w').
  { apply (Block_ctor_invariant
             (fun _ => fresh_channels (after_clones task nt w)) _ _ _ _ _ _ H).
    - apply fresh_channels_init.
    - intros i s maps v sv Hs Hsv Hfresh _.
      destruct (is_supported_socket s); [|assumption].
      now apply fresh_channels_step. }
  destruct Hloop as (Hrange & Hinj & Hnext & Hkept). simpl in Hrange, Hnext, Hkept.
  split_and!.
  - intros d nm a Hfind. specialize (Hrange _ _ _ Hfind). lia.
  - exact Hinj.
  - lia.
  - intros a Ha. apply Hkept. lia.
Qed.

(** X2: the channels of a built block are objects allocated by that
    construction, a different one for each endpoint it holds a channel for
    (whatever the direction), and the construction leaves every channel and
    ring buffer that existed before as it was. *)
Theorem Block_ctor_channels_fresh (task : Task) (bs nt : N) (w w' : World)
    (b : Block) :
  Block_ctor task bs nt w = (Ok b, w') ->
  (forall d nm a, smap_find nm (channels d b) = Some a -> w_next w <= a < w_next w')
  /\ (forall d nm d' nm' a,
         smap_find nm (channels d b) = Some a ->
         smap_find nm' (channels d' b) = Some a -> d = d' /\ nm = nm')
  /\ (forall a, a < w_next w ->
        w_heap w' !! a = w_heap w !! a /\ w_rings w' !! a = w_rings w !! a).
Proof.
  intros H. destruct (Block_ctor_fresh _ _ _ _ _ _ H) as (Hrange & Hinj & _ & Hkept).
  split_and!.
  - intros d nm a. rewrite <- pick_channels. apply Hrange.
  - intros d nm d' nm' a. rewrite <- !pick_channels. apply Hinj.
  - exact Hkept.
Qed.

Lemma Block_ctor_channels_fresh_witness :
  (forall d nm a, smap_find nm (channels d ex_mod_block) = Some a ->
                  w_next ex_world1 <= a < w_next ex_wired)
  /\ (w_heap ex_wired !! 16 = w_heap ex_world1 !! 16
      /\ w_rings ex_wired !! 16 = w_rings ex_world1 !! 16).
Proof.
  destruct (Block_ctor_channels_fresh ex_modem 2 2 ex_world1 ex_wired ex_mod_block
              ex_mod_block_built) as (Hrange & _ & Hkept).
  split; [exact Hrange|]. apply Hkept. vm_compute. lia.
Defined.

(** X3: two blocks built one after the other share no channel, and building
    the second leaves the channels of the first as they were. *)
Theorem Block_ctor_blocks_disjoint (task1 task2 : Task) (bs1 nt1 bs2 nt2 : N)
    (w w1 w2 : World) (b1 b2 : Block) (d1 d2 : sck_dir) (nm1 nm2 : string)
    (a1 a2 : nat) :
  Block_ctor task1 bs1 nt1 w = (Ok b1, w1) ->
  Block_ctor task2 bs2 nt2 w1 = (Ok b2, w2) ->
  smap_find nm1 (channels d1 b1) = Some a1 ->
  smap_find nm2 (channels d2 b2) = Some a2 ->
  a1 <> a2 /\ w_heap w2 !! a1 = w_heap w1 !! a1.
Proof.
  intros H1 H2 Hf1 Hf2.
  destruct (Block_ctor_fresh _ _ _ _ _ _ H1) as (Hrange1 & _).
  destruct (Block_ctor_fresh _ _ _ _ _ _ H2) as (Hrange2 & _ & _ & Hkept2).
  rewrite <- pick_channels in Hf1, Hf2.
  specialize (Hrange1 _ _ _ Hf1). specialize (Hrange2 _ _ _ Hf2).
  split; [lia|]. apply Hkept2. lia.
Qed.

Lemma Block_ctor_blocks_disjoint_witness :
  16 <> 21 /\ w_heap ex_wired !! 16 = w_heap ex_world1 !! 16.
Proof.
  exact (Block_ctor_blocks_disjoint ex_encoder ex_modem 2 2 2 2 ex_world ex_world1
           ex_wired ex_enc_block ex_mod_block dir_out dir_in "X_N" "X_N1" 16 21
           ex_enc_block_built ex_mod_block_built eq_refl eq_refl).
Defined.

Lemma Block_ctor_all_owned task bs nt w b w' :
  Block_ctor task bs nt w = (Ok b, w') ->
  (forall a, w_next w <= a -> w_heap w !! a = None) ->
  all_owned w (buffered_sockets_in b, buffered_sockets_out b) w'.
Proof.
  intros H Hwf.
  apply (Block_ctor_invariant (fun _ => all_owned w) _ _ _ _ _ _ H).
  - intros a c Ha Hheap. simpl in Hheap. rewrite Hwf in Hheap by assumption.
    discriminate Hheap.
  - intros i s maps v sv Hs Hsv Hfresh Hinv.
    destruct (is_supported_socket s); [|assumption].
    intros a c Ha Hheap.
    set (old := smap_find (sck_name s) (pick (dir_of (sck_type s)) maps)) in *.
    assert (Hold : old <> Some a).
    { intros E. rewrite E, released_heap_eq in Hheap. discriminate Hheap. }
    rewrite released_heap_ne in Hheap by assumption. simpl in Hheap.
    destruct (decide (a = Datatypes.S (w_next v))) as [->|Hne].
    + exists (dir_of (sck_type s)), (sck_name s). apply pick_file_eq.
    + rewrite lookup_insert_ne in Hheap by congruence.
      destruct (Hinv a c Ha Hheap) as (d & nm & Hfind).
      exists d, nm. rewrite pick_file_ne; [assumption|].
      destruct (decide (d = dir_of (sck_type s))) as [->|]; [|now left].
      right. intros ->. now apply Hold.
Qed.

(** X17: a construction leaves no channel behind that its maps do not hold.
    Started in a world that has nothing at or above the allocation counter,
    every channel object it made and that is alive when it returns is the
    entry of one of the two maps; so the channel of an earlier socket that a
    later socket of the same name and direction replaced was destroyed by the
    assignment to the entry. *)
Theorem Block_ctor_replaced_destroyed (task : Task) (bs nt : N) (w w' : World)
    (b : Block) (a : nat) (c : NT_Buffered_Socket) :
  Block_ctor task bs nt w = (Ok b, w') ->
  (forall a', w_next w <= a' -> w_heap w !! a' = None) ->
  w_next w <= a ->
  w_heap w' !! a = Some c ->
  exists d nm, smap_find nm (channels d b) = Some a.
Proof.
  intros H Hwf Ha Hheap.
  destruct (Block_ctor_all_owned _ _ _ _ _ _ H Hwf a c Ha Hheap) as (d & nm & Hfind).
  exists d, nm. now rewrite <- pick_channels.
Qed.

Lemma Block_ctor_replaced_destroyed_witness :
  w_heap ex_twin_world !! 13 = None
  /\ exists d nm, smap_find nm (channels d ex_twin_block) = Some 15.
Proof.
  split; [vm_compute; reflexivity|].
  apply (Block_ctor_replaced_destroyed ex_twin 1 1 ex_world ex_twin_world
           ex_twin_block 15
           (mkBS ty_double [mkSocket 11 "X" ty_double 4 SIN] SIN 1 14)
           ex_twin_block_built).
  - intros a' _. reflexivity.
  - vm_compute. lia.
  - vm_compute. reflexivity.
Defined.

(** ** Binding *)

Lemma bind_is_table this start dest dname w :
  bind this start dest dname w = bind_table this start dest dname w.
Proof.
  unfold bind_table.
  destruct (smap_find start (buffered_sockets_in this)) as [ain|] eqn:Hin;
    [|now apply bind_absent].
  destruct (w_heap w !! ain) as [cin|] eqn:Hcin.
  2:{ unfold bind. rewrite (smap_count_Some _ _ _ Hin). simpl.
      rewrite (bindM_Ok _ _ _ _ _ (smap_at_run _ _ _ _ Hin)).
      unfold bindM, deref. now rewrite Hcin. }
  rewrite (bind_dispatch _ _ dest dname _ _ _ Hin Hcin).
  destruct (supported (get_datatype cin)) eqn:Hsup; [|reflexivity].
  unfold bind_by_type. rewrite (bindM_Ok _ _ w ain w).
  2:{ rewrite (get_buffered_socket_in_run _ _ _ _ _ _ Hsup Hin Hcin).
      now rewrite bool_decide_eq_true_2. }
  destruct (smap_find dname (buffered_sockets_out dest)) as [aout|] eqn:Hout.
  2:{ unfold bindM. now rewrite (get_buffered_socket_out_absent _ _ _ _ Hout). }
  destruct (w_heap w !! aout) as [cout|] eqn:Hcout.
  2:{ unfold bindM at 1, get_buffered_socket_out.
      rewrite (smap_count_Some _ _ _ Hout). simpl.
      rewrite (bindM_Ok _ _ _ _ _ (smap_at_run _ _ _ _ Hout)).
      unfold bindM, deref. now rewrite Hcout. }
  unfold bindM at 1.
  rewrite (get_buffered_socket_out_run _ _ _ _ _ _ Hsup Hout Hcout).
  destruct (bool_decide (get_datatype cout = get_datatype cin)); [|reflexivity].
  apply (Buffered_Socket_bind_run _ _ _ _ _ Hcin Hcout).
Qed.



(** X5: [bind] succeeds exactly when the first name is an input channel of
    the calling block, the second an output channel of the other block, both
    pointers are live, the input channel's element type is one of the six
    and the output channel has the same element type. *)
Theorem bind_succeeds_iff (this dest : Block) (start dname : string) (w : World) :
  (exists w', bind this start dest dname w = (Ok tt, w'))
  <-> (exists ain aout cin cout,
          smap_find start (buffered_sockets_in this) = Some ain
          /\ w_heap w !! ain = Some cin
          /\ smap_find dname (buffered_sockets_out dest) = Some aout
          /\ w_heap w !! aout = Some cout
          /\ supported (get_datatype cin) = true
          /\ get_datatype cout = get_datatype cin).
Proof.
  rewrite bind_is_table. unfold bind_table. split.
  - intros [w' H].
    destruct (smap_find start _) as [ain|] eqn:Hin; [|discriminate].
    destruct (w_heap w !! ain) as [cin|] eqn:Hcin; [|discriminate].
    destruct (supported (get_datatype cin)) eqn:Hsup; [|discriminate].
    destruct (smap_find dname _) as [aout|] eqn:Hout; [|discriminate].
    destruct (w_heap w !! aout) as [cout|] eqn:Hcout; [|discriminate].
    destruct (bool_decide (get_datatype cout = get_datatype cin)) eqn:Heq;
      [|discriminate].
    apply bool_decide_eq_true_1 in Heq. exists ain, aout, cin, cout.
    split_and!; auto.
  - intros (ain & aout & cin & cout & -> & -> & -> & -> & -> & Heq).
    rewrite bool_decide_eq_true_2 by assumption. eauto.
Qed.

Lemma bind_succeeds_iff_witness :
  exists w', bind ex_mod_block "X_N1" ex_enc_block "X_N" ex_wired = (Ok tt, w').
Proof.
  apply (proj2 (bind_succeeds_iff ex_mod_block ex_enc_block "X_N1" "X_N" ex_wired)).
  exists 21, 16, ex_mod_in, ex_enc_out.
  split; [reflexivity|]. split; [vm_compute; reflexivity|].
  split; [reflexivity|]. split; [vm_compute; reflexivity|].
  split; reflexivity.
Defined.

Lemma Block_ctor_block_ok_new task bs nt w b w' :
  Block_ctor task bs nt w = (Ok b, w') -> block_ok b w'.
Proof.
  intros H d nm a Hfind.
  pose proof (Block_ctor_inv _ _ _ _ _ _ H) as (_ & _ & Hpost).
  rewrite <- pick_channels in Hfind.
  destruct (cp_sound _ _ _ _ _ _ Hpost _ _ _ Hfind)
    as (Ha & j & s & c & _ & _ & _ & _ & Hsup & Hheap & Hc).
  split; [assumption|]. exists c. split; [assumption|].
  now rewrite (co_datatype _ _ _ _ _ Hc).
Qed.

Lemma Block_ctor_block_ok_kept task bs nt w b w' b0 :
  Block_ctor task bs nt w = (Ok b, w') -> block_ok b0 w -> block_ok b0 w'.
Proof.
  intros H Hok d nm a Hfind.
  destruct (Hok d nm a Hfind) as (Ha & c & Hheap & Hsup).
  destruct (Block_ctor_fresh _ _ _ _ _ _ H) as (_ & _ & Hnext & Hkept).
  split; [lia|]. exists c. split; [|assumption].
  now rewrite (proj1 (Hkept a Ha)).
Qed.

(** X6: a built block has all its channels live and of one of the six
    element types, and building it leaves that so for every block for which
    it held before. *)
Theorem Block_ctor_block_ok (task : Task) (bs nt : N) (w w' : World) (b b0 : Block) :
  Block_ctor task bs nt w = (Ok b, w') ->
  block_ok b w' /\ (block_ok b0 w -> block_ok b0 w').
Proof.
  intros H. split.
  - exact (Block_ctor_block_ok_new _ _ _ _ _ _ H).
  - exact (Block_ctor_block_ok_kept _ _ _ _ _ _ _ H).
Qed.

Lemma ex_enc_block_ok : block_ok ex_enc_block ex_world1.
Proof. exact (Block_ctor_block_ok_new _ _ _ _ _ _ ex_enc_block_built). Qed.

Lemma ex_blocks_ok : block_ok ex_enc_block ex_wired /\ block_ok ex_mod_block ex_wired.
Proof.
  split.
  - exact (Block_ctor_block_ok_kept _ _ _ _ _ _ _ ex_mod_block_built ex_enc_block_ok).
  - exact (Block_ctor_block_ok_new _ _ _ _ _ _ ex_mod_block_built).
Qed.

Lemma Block_ctor_block_ok_witness :
  block_ok ex_mod_block ex_wired /\ block_ok ex_enc_block ex_wired.
Proof.
  destruct (Block_ctor_block_ok ex_modem 2 2 ex_world1 ex_wired ex_mod_block
              ex_enc_block ex_mod_block_built) as [Hnew Hkept].
  split; [exact Hnew|]. apply Hkept. exact ex_enc_block_ok.
Defined.

(** X7: between blocks whose channels are live and of the six element types
    (as construction leaves them), [bind] either succeeds or throws the
    NotFound or the TypeMismatch error: the "This should not happen" error
    and a dangling pointer cannot occur. *)
Theorem bind_never_unreachable (this dest : Block) (start dname : string)
    (w : World) :
  block_ok this w -> block_ok dest w ->
  match fst (bind this start dest dname w) with
  | Ok _ => True
  | Throw e => error_kind e = NotFound \/ error_kind e = TypeMismatch
  | Undefined => False
  | Pending => False
  end.
Proof.
  intros Hthis Hdest. rewrite bind_is_table. unfold bind_table.
  destruct (smap_find start _) as [ain|] eqn:Hin; [|simpl; auto].
  destruct (Hthis dir_in start ain Hin) as (_ & cin & -> & ->).
  destruct (smap_find dname _) as [aout|] eqn:Hout; [|simpl; auto].
  destruct (Hdest dir_out dname aout Hout) as (_ & cout & -> & _).
  destruct (bool_decide _); simpl; auto.
Qed.

Lemma bind_never_unreachable_witness :
  match fst (bind ex_mod_block "X_N1" ex_mod_block "X_N2" ex_wired) with
  | Ok _ => True
  | Throw e => error_kind e = NotFound \/ error_kind e = TypeMismatch
  | Undefined => False
  | Pending => False
  end.
Proof.
  exact (bind_never_unreachable ex_mod_block ex_mod_block "X_N1" "X_N2" ex_wired
           (proj2 ex_blocks_ok) (proj2 ex_blocks_ok)).
Defined.

(** X8: [bind] keeps every block's channels live and of the six element
    types, whatever its outcome; so any number of constructions and binds
    leaves the blocks fit for further binds. *)
Theorem bind_keeps_block_ok (this dest b0 : Block) (start dname : string)
    (w : World) :
  block_ok b0 w -> block_ok b0 (snd (bind this start dest dname w)).
Proof.
  intros Hok. rewrite bind_is_table. unfold bind_table.
  repeat match goal with
         | |- context [match ?x with _ => _ end] => destruct x eqn:?
         end; simpl; try exact Hok.
  intros d nm a Hfind. destruct (Hok d nm a Hfind) as (Ha & c & Hheap & Hsup).
  simpl. split; [assumption|].
  destruct (decide (n = a)) as [->|Hne].
  - rewrite lookup_insert_eq. eexists. split; [reflexivity|].
    unfold bound_to, get_datatype in *. simpl. congruence.
  - rewrite lookup_insert_ne by assumption. eauto.
Qed.

Lemma bind_keeps_block_ok_witness :
  block_ok ex_enc_block (snd (bind ex_mod_block "X_N1" ex_enc_block "X_N" ex_wired)).
Proof.
  exact (bind_keeps_block_ok ex_mod_block ex_enc_block ex_enc_block "X_N1" "X_N"
           ex_wired (proj1 ex_blocks_ok)).
Defined.

Lemma get_buffered_socket_in_absent T this nm w :
  smap_find nm (buffered_sockets_in this) = None ->
  get_buffered_socket_in T this nm w =
  (Throw (runtime_error "get_buffered_socket_in" (msg_count_positive dir_in nm 0)), w).
Proof.
  intros Hfind. unfold get_buffered_socket_in.
  now rewrite (smap_count_None _ _ Hfind).
Qed.

Lemma get_buffered_socket_found d T b nm a c w :
  supported T = true ->
  smap_find nm (channels d b) = Some a ->
  w_heap w !! a = Some c ->
  (get_datatype c = T -> get_buffered_socket d T b nm w = (Ok a, w))
  /\ (get_datatype c <> T ->
      exists e, get_buffered_socket d T b nm w = (Throw e, w)
                /\ error_kind e = TypeMismatch).
Proof.
  intros HT Hfind Hheap. destruct d; simpl in *.
  - rewrite (get_buffered_socket_in_run _ _ _ _ _ _ HT Hfind Hheap). split; intros H.
    + now rewrite bool_decide_eq_true_2.
    + rewrite bool_decide_eq_false_2 by assumption. eauto.
  - rewrite (get_buffered_socket_out_run _ _ _ _ _ _ HT Hfind Hheap). split; intros H.
    + now rewrite bool_decide_eq_true_2.
    + rewrite bool_decide_eq_false_2 by assumption. eauto.
Qed.

Lemma get_buffered_socket_absent d T b nm w :
  smap_find nm (channels d b) = None ->
  exists e, get_buffered_socket d T b nm w = (Throw e, w) /\ error_kind e = NotFound.
Proof.
  intros Hfind. destruct d; simpl in *.
  - rewrite (get_buffered_socket_in_absent _ _ _ _ Hfind). eauto.
  - rewrite (get_buffered_socket_out_absent _ _ _ _ Hfind). eauto.
Qed.

(** X9: what the constructor files, the getters find.  For a socket of the
    template with one of the six element types (names unique in the task),
    the getter of the socket's direction, asked at the socket's own element
    type, returns the channel filed for it and changes nothing; asked at
    another of the six types it throws the TypeMismatch error; and the getter
    of the other direction throws the NotFound error for that name. *)
Theorem get_buffered_socket_round_trip (task : Task) (bs nt : N) (w w' : World)
    (b : Block) (j : nat) (s : Socket) (T : type_index) :
  Block_ctor task bs nt w = (Ok b, w') ->
  NoDup (map sck_name (tk_sockets task)) ->
  tk_sockets task !! j = Some s ->
  supported (sck_datatype s) = true ->
  supported T = true ->
  exists a c,
    smap_find (sck_name s) (channels (dir_of (sck_type s)) b) = Some a
    /\ w_heap w' !! a = Some c
    /\ get_datatype c = sck_datatype s
    /\ (T = sck_datatype s ->
        get_buffered_socket (dir_of (sck_type s)) T b (sck_name s) w' = (Ok a, w'))
    /\ (T <> sck_datatype s ->
        exists e,
          get_buffered_socket (dir_of (sck_type s)) T b (sck_name s) w' = (Throw e, w')
          /\ error_kind e = TypeMismatch)
    /\ (exists e,
          get_buffered_socket (other_dir (dir_of (sck_type s))) T b (sck_name s) w'
          = (Throw e, w')
          /\ error_kind e = NotFound).
Proof.
  intros H Hnodup Hs Hsup HT.
  pose proof (Block_ctor_inv _ _ _ _ _ _ H) as (_ & _ & Hpost).
  destruct (cp_complete _ _ _ _ _ _ Hpost Hnodup) as [Hall _].
  destruct (Hall j s) as (a & c & Hfind & Hheap & Hc); [|assumption..|].
  { apply lookup_lt_is_Some. eauto. }
  rewrite pick_channels in Hfind. pose proof (co_datatype _ _ _ _ _ Hc) as Hdt.
  exists a, c.
  destruct (get_buffered_socket_found _ T _ _ _ _ _ HT Hfind Hheap) as [Hsame Hdiff].
  split_and!; auto.
  - intros ->. now apply Hsame.
  - intros Hne. apply Hdiff. congruence.
  - apply get_buffered_socket_absent.
    destruct (smap_find (sck_name s)
                (channels (other_dir (dir_of (sck_type s))) b))
      as [a'|] eqn:Hfind'; [|reflexivity].
    rewrite <- pick_channels in Hfind'.
    destruct (cp_sound _ _ _ _ _ _ Hpost _ _ _ Hfind')
      as (_ & j' & s' & _ & _ & Hs' & Hname & Hdir & _).
    pose proof (unique_name_index _ _ _ _ _ Hnodup Hs' Hs Hname) as ->.
    assert (s' = s) by congruence. subst s'.
    destruct (dir_of (sck_type s)); discriminate.
Qed.

Lemma get_buffered_socket_round_trip_witness :
  exists a c,
    smap_find (sck_name ex_U_K) (channels (dir_of (sck_type ex_U_K)) ex_enc_block)
    = Some a
    /\ w_heap ex_world1 !! a = Some c
    /\ get_datatype c = sck_datatype ex_U_K
    /\ (ty_double = sck_datatype ex_U_K ->
        get_buffered_socket (dir_of (sck_type ex_U_K)) ty_double ex_enc_block
          (sck_name ex_U_K) ex_world1 = (Ok a, ex_world1))
    /\ (ty_double <> sck_datatype ex_U_K ->
        exists e,
          get_buffered_socket (dir_of (sck_type ex_U_K)) ty_double ex_enc_block
            (sck_name ex_U_K) ex_world1 = (Throw e, ex_world1)
          /\ error_kind e = TypeMismatch)
    /\ (exists e,
          get_buffered_socket (other_dir (dir_of (sck_type ex_U_K))) ty_double
            ex_enc_block (sck_name ex_U_K) ex_world1 = (Throw e, ex_world1)
          /\ error_kind e = NotFound).
Proof.
  assert (Hnd : NoDup (map sck_name (tk_sockets ex_encoder))).
  { apply (bool_decide_unpack _). vm_compute. exact I. }
  exact (get_buffered_socket_round_trip ex_encoder 2 2 ex_world ex_world1
           ex_enc_block 0 ex_U_K ty_double
           ex_enc_block_built Hnd eq_refl eq_refl eq_refl).
Defined.

(** ** The worker loop *)

Lemma guarded_mono tr : guarded false tr = true -> guarded true tr = true.
Proof. destruct tr as [|[] tr]; simpl; auto; discriminate. Qed.

Lemma guarded_weaken clear tr : guarded false tr = true -> guarded clear tr = true.
Proof. destruct clear; [apply guarded_mono|auto]. Qed.

Lemma guarded_app clear t1 t2 :
  guarded clear t1 = true -> guarded false t2 = true ->
  guarded clear (t1 ++ t2) = true.
Proof.
  revert clear. induction t1 as [|e t1 IH]; intros clear H1 H2; simpl.
  - now apply guarded_weaken.
  - destruct e; simpl in *; try (apply IH; assumption);
      apply andb_prop in H1 as [-> H1]; simpl; now apply IH.
Qed.

Lemma guards_weaken {A} clear (c : M A) : guards false c -> guards clear c.
Proof.
  intros H w. destruct (H w) as (tr & Hlog & Hg).
  exists tr. split; [assumption|now apply guarded_weaken].
Qed.

Lemma guards_bind {A B} clear (c : M A) (k : A -> M B) :
  guards clear c -> (forall a, guards false (k a)) -> guards clear (bindM c k).
Proof.
  intros Hc Hk w. destruct (Hc w) as (t1 & Hlog1 & Hg1). unfold bindM.
  destruct (c w) as [[a| | |] w1]; simpl in *;
    try (exists t1; split; assumption).
  destruct (Hk a w1) as (t2 & Hlog2 & Hg2).
  exists (t1 ++ t2). split.
  - now rewrite Hlog2, Hlog1, app_assoc.
  - now apply guarded_app.
Qed.

Lemma guards_silent_bind {A B} clear (c : M A) (k : A -> M B) :
  (forall w, snd (c w) = w) -> (forall a, guards clear (k a)) ->
  guards clear (bindM c k).
Proof.
  intros Hc Hk w. unfold bindM. specialize (Hc w).
  destruct (c w) as [[a| | |] w1]; simpl in *; subst w1;
    try (exists []; split; [now rewrite app_nil_r|reflexivity]).
  apply Hk.
Qed.

(** After a read of the flag the rest is guarded according to what was
    read. *)
Lemma guards_is_done {B} clear (k : bool -> M B) :
  guards false (k true) -> guards true (k false) -> guards clear (bindM is_done k).
Proof.
  intros Ht Hf w. unfold bindM at 1, is_done, bindM, ask, emit, ret.
  destruct (w_env w) as [|b env]; simpl.
  - exists []. split; [now rewrite app_nil_r|reflexivity].
  - set (w1 := mkWorld _ _ _ _ _).
    assert (H : exists tr, w_log (snd (k b w1)) = w_log w1 ++ tr
                           /\ guarded (negb b) tr = true).
    { destruct b; [apply Ht|apply Hf]. }
    destruct H as (tr & Hlog & Hg). exists (EvIsDone b :: tr). split.
    + rewrite Hlog. subst w1. simpl. now rewrite <- app_assoc.
    + exact Hg.
Qed.

Lemma guards_ret {A} clear (a : A) : guards clear (ret a).
Proof. intros w. exists []. split; [now rewrite app_nil_r|reflexivity]. Qed.

Lemma guards_pending {A} clear : guards clear (@pending A).
Proof. intros w. exists []. split; [now rewrite app_nil_r|reflexivity]. Qed.

Lemma guards_ask_emit (ev : bool -> event) :
  (forall b, guarded true [ev b] = true) ->
  guards true (let! b := ask in do! emit (ev b) in ret b).
Proof.
  intros Hev w. unfold bindM, ask, emit, ret.
  destruct (w_env w) as [|b env]; simpl.
  - exists []. split; [now rewrite app_nil_r|reflexivity].
  - exists [ev b]. split; [reflexivity|apply Hev].
Qed.

Lemma guards_spin (op : M bool) :
  guards true op -> forall fuel, guards false (spin fuel op).
Proof.
  intros Hop. induction fuel as [|fuel IH]; simpl.
  - apply guards_pending.
  - apply guards_is_done.
    + apply guards_ret.
    + apply guards_bind; [assumption|]. intros []; [assumption|apply guards_ret].
Qed.

Lemma guards_for_each (body : nat -> M unit) :
  (forall a, guards false (body a)) -> forall m, guards false (for_each m body).
Proof.
  intros Hbody. induction m as [|[k a] m IH]; simpl.
  - apply guards_ret.
  - apply guards_bind; [apply Hbody|]. intros _. exact IH.
Qed.

Lemma guards_iteration fuel this tid : guards false (iteration fuel this tid).
Proof.
  unfold iteration. apply guards_bind.
  - apply guards_for_each. intros a. apply guards_spin.
    apply (guards_ask_emit (EvPop a tid)). reflexivity.
  - intros _. apply guards_is_done; [apply guards_ret|].
    apply guards_silent_bind.
    + intros w. unfold at_index. now destruct (tasks this !! N.to_nat tid).
    + intros t. apply guards_bind.
      * intros w. exists [EvExec (tk_id t)]. split; reflexivity.
      * intros _. apply guards_bind; [|intros _; apply guards_ret].
        apply guards_for_each. intros a. apply guards_spin.
        apply (guards_ask_emit (EvPush a tid)). reflexivity.
Qed.

Lemma guards_main_loop this tid : forall fuel, guards false (main_loop fuel this tid).
Proof.
  induction fuel as [|fuel IH]; simpl.
  - apply guards_pending.
  - apply guards_is_done; [apply guards_ret|].
    apply guards_weaken, guards_bind; [apply guards_iteration|].
    intros []; [assumption|apply guards_ret].
Qed.

(** X10: a worker thread never calls [pop], [exec] or [push] but directly
    after reading the stop flag and finding it clear; this holds of every
    stretch of its run, finished or not. *)
Theorem execute_task_guarded (fuel : nat) (this : Block) (tid : N) (w : World) :
  exists tr,
    w_log (snd (execute_task fuel this tid w)) = w_log w ++ tr
    /\ guarded false tr = true.
Proof.
  revert w. change (guards false (execute_task fuel this tid)).
  unfold execute_task. apply guards_bind; [apply guards_main_loop|].
  intros _. unfold stop_all. apply guards_bind.
  - apply guards_for_each. intros a w. exists [EvStop a]. split; reflexivity.
  - intros _. apply guards_for_each. intros a w. exists [EvStop a]. split; reflexivity.
Qed.

Lemma run_elem this tid : tid ∈ run this <-> (tid < n_threads this)%N.
Proof.
  unfold run. rewrite list_elem_of_In, in_map_iff. split.
  - intros (i & <- & Hi). apply in_seq in Hi. lia.
  - intros H. exists (N.to_nat tid). split; [lia|]. apply in_seq. lia.
Qed.

Lemma Block_ctor_replica task bs nt w b w' tid :
  Block_ctor task bs nt w = (Ok b, w') ->
  (tid < nt)%N ->
  tasks b !! N.to_nat tid
  = Some (clone_of (prototype task (w_next w))
                   (Datatypes.S (w_next w) + N.to_nat tid)).
Proof.
  intros H Htid. apply Block_ctor_inv in H as (_ & _ & Hpost).
  rewrite (cp_tasks _ _ _ _ _ _ Hpost). unfold replicas.
  rewrite map_lookup.
  assert (E : seq (Datatypes.S (w_next w)) (N.to_nat nt) !! N.to_nat tid
              = Some (Datatypes.S (w_next w) + N.to_nat tid)).
  { apply lookup_seq. split; [reflexivity|lia]. }
  now rewrite E.
Qed.

Lemma spin_when_done (op : M bool) fuel w env :
  w_env w = true :: env ->
  spin (Datatypes.S fuel) op w =
  (Ok tt, mkWorld (w_next w) (w_heap w) (w_rings w) (w_log w ++ [EvIsDone true]) env).
Proof.
  intros Henv. simpl. unfold bindM at 1, is_done, bindM, ask, emit, ret.
  now rewrite Henv.
Qed.

Lemma for_each_spin_when_done (op : nat -> M bool) fuel :
  forall m w env,
    w_env w = repeat true (length m) ++ env ->
    for_each m (fun it => spin (Datatypes.S fuel) (op it)) w =
    (Ok tt, mkWorld (w_next w) (w_heap w) (w_rings w)
                    (w_log w ++ repeat (EvIsDone true) (length m)) env).
Proof.
  induction m as [|[k a] m IH]; intros w env Henv.
  - simpl in *. unfold ret. destruct w; simpl in *. subst. now rewrite app_nil_r.
  - cbn [for_each]. simpl in Henv.
    rewrite (bindM_Ok _ _ _ _ _ (spin_when_done _ fuel _ _ Henv)).
    rewrite (IH _ env); [|reflexivity]. simpl. now rewrite <- app_assoc.
Qed.

(** X12: a pass that starts when the stop flag is already raised (every read
    of it finds it set) does no work: it reads the flag once for each input
    channel and once more, pops nothing, does not run the task, pushes
    nothing, and breaks out of the loop. *)
Theorem iteration_when_done (fuel : nat) (this : Block) (tid : N) (w : World)
    (env : list bool) :
  w_env w = repeat true (length (buffered_sockets_in this)) ++ true :: env ->
  iteration (Datatypes.S fuel) this tid w =
  (Ok Break,
   mkWorld (w_next w) (w_heap w) (w_rings w)
           (w_log w ++ repeat (EvIsDone true)
                         (Datatypes.S (length (buffered_sockets_in this))))
           env).
Proof.
  intros Henv. unfold iteration.
  rewrite (bindM_Ok _ _ _ _ _ (for_each_spin_when_done _ fuel _ _ _ Henv)).
  unfold bindM, is_done, bindM, ask, emit, ret. simpl.
  now rewrite <- app_assoc, <- repeat_cons.
Qed.

Lemma iteration_when_done_witness :
  iteration 1 ex_enc_block 0
    (mkWorld 0 ∅ ∅ [] [true; true; false])
  = (Ok Break, mkWorld 0 ∅ ∅ [EvIsDone true; EvIsDone true] [false]).
Proof.
  exact (iteration_when_done 0 ex_enc_block 0 (mkWorld 0 ∅ ∅ [] [true; true; false])
           [false] eq_refl).
Defined.

Lemma spin_polled (call : bool -> event) :
  forall fuel w w',
    spin fuel (let! r := ask in do! emit (call r) in ret r) w = (Ok tt, w') ->
    exists tr, steps w tr w' /\ polled call tr.
Proof.
  induction fuel as [|fuel IH]; intros w w' H; [discriminate|].
  simpl in H. apply bindM_inv_Ok in H as (done & w1 & Hd & H).
  apply is_done_inv in Hd. destruct done.
  - injection H as <-. exists [EvIsDone true]. split; [assumption|constructor].
  - apply bindM_inv_Ok in H as (r & w2 & Hr & H).
    apply ask_emit_inv in Hr. destruct r.
    + destruct (IH _ _ H) as (tr & Htr & Hpolled).
      exists ([EvIsDone false] ++ [call true] ++ tr). split.
      * eapply steps_trans; [eassumption|]. eapply steps_trans; eassumption.
      * now constructor.
    + injection H as <-. exists ([EvIsDone false] ++ [call false]). split.
      * eapply steps_trans; eassumption.
      * constructor.
Qed.

Lemma for_each_segments (Q : nat -> list event -> Prop) (body : nat -> M unit) :
  (forall a w w', body a w = (Ok tt, w') -> exists tr, steps w tr w' /\ Q a tr) ->
  forall m w w',
    for_each m body w = (Ok tt, w') ->
    exists segs,
      steps w (concat segs) w'
      /\ Forall2 (fun entry seg => Q (snd entry) seg) m segs.
Proof.
  intros Hbody. induction m as [|[k a] m IH]; intros w w' H; simpl in H.
  - injection H as <-. exists []. split; [apply steps_refl|constructor].
  - apply bindM_inv_Ok in H as ([] & w1 & H1 & H).
    destruct (Hbody _ _ _ H1) as (seg & Hseg & HQ).
    destruct (IH _ _ H) as (segs & Hsegs & Hall).
    exists (seg :: segs). split.
    + simpl. eapply steps_trans; eassumption.
    + constructor; assumption.
Qed.

(** X15: within a pass a thread serves its channels one at a time, in the
    order of the map.  The calls of a pass that came to its end are: for each
    input channel in turn a polling loop come to its end (at least one read of
    the flag; [pop] called again as long as the flag is found clear and [pop]
    answers true; all polling of one channel done before the next is
    touched); the read of the flag; and, when that found the flag set, nothing
    more and a [break]; when it found the flag clear, the one [exec], followed
    by such a polling loop with [push] for each output channel in turn. *)
Theorem iteration_serves_in_order (fuel : nat) (this : Block) (tid : N)
    (w w' : World) (f : flow) :
  iteration fuel this tid w = (Ok f, w') ->
  exists (pops : list (list event)) (done : bool) (rest : list event),
    served_in_order (fun a => EvPop a tid) (buffered_sockets_in this) pops
    /\ w_log w' = w_log w ++ concat pops ++ [EvIsDone done] ++ rest
    /\ (if done
        then f = Break /\ rest = []
        else f = Continue
             /\ exists t pushes,
                  tasks this !! N.to_nat tid = Some t
                  /\ served_in_order (fun a => EvPush a tid)
                       (buffered_sockets_out this) pushes
                  /\ rest = EvExec (tk_id t) :: concat pushes).
Proof.
  unfold iteration. intros H.
  apply bindM_inv_Ok in H as ([] & w1 & Hpops & H).
  apply (for_each_segments (fun a => polled (EvPop a tid))) in Hpops
    as (pops & (Hlog1 & _) & Hserved).
  2:{ intros a v v'. apply (spin_polled (EvPop a tid)). }
  apply bindM_inv_Ok in H as (done & w2 & Hd & H).
  apply is_done_inv in Hd as (Hlog2 & _).
  exists pops, done. destruct done.
  - injection H as <- <-. exists []. split; [assumption|]. split; [|auto].
    rewrite Hlog2, Hlog1. now rewrite <- !app_assoc.
  - apply bindM_inv_Ok in H as (t & w3 & Ht & H).
    unfold at_index in Ht. destruct (tasks this !! N.to_nat tid) as [t'|] eqn:Et;
      [|discriminate]. injection Ht as -> <-.
    apply bindM_inv_Ok in H as ([] & w4 & Hexec & H).
    injection Hexec as <-.
    apply bindM_inv_Ok in H as ([] & w5 & Hpushes & H).
    injection H as <- <-.
    apply (for_each_segments (fun a => polled (EvPush a tid))) in Hpushes
      as (pushes & (Hlog3 & _) & Hserved').
    2:{ intros a v v'. apply (spin_polled (EvPush a tid)). }
    exists (EvExec (tk_id t) :: concat pushes). split; [assumption|]. split.
    + rewrite Hlog3. simpl. rewrite Hlog2, Hlog1.
      now rewrite <- !app_assoc.
    + split; [reflexivity|]. exists t, pushes. auto.
Qed.

Lemma iteration_serves_in_order_witness :
  exists (pops : list (list event)) (done : bool) (rest : list event),
    served_in_order (fun a => EvPop a 0) (buffered_sockets_in ex_enc_block) pops
    /\ w_log ex_pass = w_log ex_thread_world ++ concat pops ++ [EvIsDone done] ++ rest
    /\ (if done
        then Continue = Break /\ rest = []
        else Continue = Continue
             /\ exists t pushes,
                  tasks ex_enc_block !! N.to_nat 0 = Some t
                  /\ served_in_order (fun a => EvPush a 0)
                       (buffered_sockets_out ex_enc_block) pushes
                  /\ rest = EvExec (tk_id t) :: concat pushes).
Proof.
  assert (E : iteration 3 ex_enc_block 0 ex_thread_world = (Ok Continue, ex_pass))
    by (vm_compute; reflexivity).
  exact (iteration_serves_in_order 3 ex_enc_block 0 ex_thread_world ex_pass
           Continue E).
Defined.

(** ** [run] *)

Lemma run_NoDup this : NoDup (run this).
Proof.
  apply NoDup_alt. intros i j tid. unfold run. rewrite !map_lookup.
  destruct (seq 0 _ !! i) as [x|] eqn:Ei; [|discriminate].
  destruct (seq 0 _ !! j) as [y|] eqn:Ej; [|discriminate].
  apply lookup_seq in Ei as [-> _]. apply lookup_seq in Ej as [-> _].
  simpl. intros [= <-] [= E]. lia.
Qed.

(** X13: [run] starts exactly [n_threads] threads, with thread ids
    [0 .. n_threads - 1], each once.  On a built block every such thread has a
    replica of its own, no two threads the same one, and in every channel of
    the block the slot of thread [tid] is the socket, of the channel's name,
    of that thread's replica. *)
Theorem run_threads_own_replicas (task : Task) (bs nt : N) (w w' : World)
    (b : Block) :
  Block_ctor task bs nt w = (Ok b, w') ->
  length (run b) = N.to_nat nt
  /\ NoDup (run b)
  /\ forall tid,
       tid ∈ run b ->
       exists t,
         tasks b !! N.to_nat tid = Some t
         /\ (forall tid' t',
                tid' ∈ run b -> tasks b !! N.to_nat tid' = Some t' ->
                tk_id t' = tk_id t -> tid' = tid)
         /\ (forall d nm a,
                smap_find nm (channels d b) = Some a ->
                exists c s,
                  w_heap w' !! a = Some c
                  /\ bs_sockets c !! N.to_nat tid = Some s
                  /\ sck_task s = tk_id t
                  /\ sck_name s = nm).
Proof.
  intros H. pose proof (Block_ctor_inv _ _ _ _ _ _ H) as (_ & _ & Hpost).
  pose proof (cp_n_threads _ _ _ _ _ _ Hpost) as Hnt.
  split_and!.
  - unfold run. now rewrite length_map, length_seq, Hnt.
  - apply run_NoDup.
  - intros tid Htid. apply run_elem in Htid. rewrite Hnt in Htid.
    pose proof (Block_ctor_replica _ _ _ _ _ _ _ H Htid) as Ht.
    eexists. split; [exact Ht|]. split.
    + intros tid' t' Htid' Ht' Hid. apply run_elem in Htid'. rewrite Hnt in Htid'.
      rewrite (Block_ctor_replica _ _ _ _ _ _ _ H Htid') in Ht'.
      injection Ht' as <-. simpl in Hid. lia.
    + intros d nm a Hfind. rewrite <- pick_channels in Hfind.
      destruct (cp_sound _ _ _ _ _ _ Hpost _ _ _ Hfind)
        as (_ & j & s0 & c & _ & Hs0 & Hname & _ & _ & Hheap & Hc).
      destruct (Forall2_lookup_l _ _ _ _ _ (co_slots _ _ _ _ _ Hc) Ht)
        as (s & Hslot & Hs).
      exists c, s. split; [assumption|]. split; [assumption|].
      rewrite (replica_socket _ _ _ _ _ Hs0) in Hs. injection Hs as <-.
      simpl. auto.
Qed.

Lemma run_threads_own_replicas_witness :
  length (run ex_enc_block) = 2
  /\ NoDup (run ex_enc_block)
  /\ exists t,
       tasks ex_enc_block !! N.to_nat 1 = Some t
       /\ exists c s,
            w_heap ex_world1 !! 14 = Some c
            /\ bs_sockets c !! N.to_nat 1 = Some s
            /\ sck_task s = tk_id t
            /\ sck_name s = "U_K".
Proof.
  destruct (run_threads_own_replicas ex_encoder 2 2 ex_world ex_world1 ex_enc_block
              ex_enc_block_built) as (Hlen & Hnd & Hall).
  split; [exact Hlen|]. split; [exact Hnd|].
  destruct (Hall 1%N) as (t & Ht & _ & Hslots).
  - apply run_elem. reflexivity.
  - exists t. split; [exact Ht|].
    exact (Hslots dir_in "U_K" 14 eq_refl).
Defined.

(** ** Termination once the flag is raised *)

Lemma ends_true_false k b env :
  ends_true k (b :: env) -> b = false -> ends_true k env.
Proof.
  intros [pre H] ->. destruct pre as [|b pre]; simpl in H.
  - destruct k; discriminate.
  - injection H as _ ->. now exists pre.
Qed.

Lemma ends_true_tail k b env :
  ends_true k (b :: env) -> trues_left 1 k env.
Proof.
  intros [pre H]. destruct pre as [|b' pre]; simpl in H.
  - right. destruct k as [|k]; [discriminate|]. injection H as _ ->.
    exists k. split; [reflexivity|lia].
  - left. injection H as _ ->. now exists pre.
Qed.

Lemma ends_true_cons k env : 1 <= k -> ends_true k env -> exists b e, env = b :: e.
Proof.
  intros Hk [pre ->]. destruct pre as [|b pre]; simpl; eauto.
  destruct k; [lia|]. simpl. eauto.
Qed.

Lemma trues_left_weaken n n' k env :
  n <= n' -> trues_left n k env -> trues_left n' k env.
Proof.
  intros Hn [H|(k' & -> & Hk)]; [now left|]. right. exists k'. split; [reflexivity|lia].
Qed.

Lemma asks_once_ask_emit (ev : bool -> event) :
  asks_once (let! b := ask in do! emit (ev b) in ret b).
Proof.
  intros w b env Henv. unfold bindM, ask, emit, ret. rewrite Henv. simpl. eauto.
Qed.

Lemma is_done_asks_once : asks_once is_done.
Proof. apply (asks_once_ask_emit EvIsDone). Qed.

Lemma spin_pure (op : M bool) fuel w k :
  w_env w = repeat true (Datatypes.S k) ->
  exists w', spin (Datatypes.S fuel) op w = (Ok tt, w') /\ w_env w' = repeat true k.
Proof.
  intros Henv. rewrite (spin_when_done op fuel w (repeat true k) Henv). eauto.
Qed.

Lemma for_each_spin_pure (op : nat -> M bool) fuel m w k :
  w_env w = repeat true k -> length m <= k ->
  exists w',
    for_each m (fun it => spin (Datatypes.S fuel) (op it)) w = (Ok tt, w')
    /\ w_env w' = repeat true (k - length m).
Proof.
  intros Henv Hk.
  assert (E : w_env w = repeat true (length m) ++ repeat true (k - length m)).
  { rewrite Henv, <- repeat_app. f_equal. lia. }
  rewrite (for_each_spin_when_done op fuel m w _ E). eauto.
Qed.

(** A polling loop ends when the flag is raised for good, having used up at
    most two of the final answers. *)
Lemma spin_ends (op : M bool) k :
  asks_once op -> 2 <= k ->
  forall fuel w,
    ends_true k (w_env w) -> length (w_env w) < fuel ->
    exists w',
      spin fuel op w = (Ok tt, w')
      /\ length (w_env w') < length (w_env w)
      /\ trues_left 2 k (w_env w').
Proof.
  intros Hop Hk. induction fuel as [|fuel IH]; intros w Hends Hfuel; [lia|].
  destruct (ends_true_cons k _ ltac:(lia) Hends) as (b & e1 & Henv).
  destruct (is_done_asks_once w b e1 Henv) as (w1 & Hd & Henv1).
  simpl. rewrite (bindM_Ok _ _ _ _ _ Hd). rewrite Henv in Hends, Hfuel.
  simpl in Hfuel. destruct b.
  - exists w1. split; [reflexivity|]. rewrite Henv, Henv1. simpl. split; [lia|].
    eapply trues_left_weaken; [|apply (ends_true_tail _ _ _ Hends)]. lia.
  - pose proof (ends_true_false _ _ _ Hends eq_refl) as Hends1.
    destruct (ends_true_cons k _ ltac:(lia) Hends1) as (r & e2 & ->).
    destruct (Hop w1 r e2 Henv1) as (w2 & Hr & Henv2).
    rewrite (bindM_Ok _ _ _ _ _ Hr). simpl in Hfuel.
    destruct (ends_true_tail _ _ _ Hends1) as [Hends2|(k' & He2 & Hk')].
    + destruct r.
      * destruct (IH w2) as (w' & Hs & Hlen & Hleft).
        { now rewrite Henv2. }
        { rewrite Henv2. lia. }
        exists w'. split; [assumption|]. rewrite Henv. rewrite Henv2 in Hlen.
        simpl. split; [lia|assumption].
      * exists w2. split; [reflexivity|]. rewrite Henv, Henv2. simpl.
        split; [lia|]. now left.
    + destruct r.
      * destruct fuel as [|fuel]; [simpl in Hfuel; lia|].
        destruct k' as [|k']; [lia|].
        destruct (spin_pure op fuel w2 k') as (w' & Hs & Henv').
        { now rewrite Henv2. }
        exists w'. split; [assumption|]. rewrite Henv, Henv', He2.
        simpl. rewrite !repeat_length. split; [lia|].
        right. exists k'. split; [reflexivity|lia].
      * exists w2. split; [reflexivity|]. rewrite Henv, Henv2. simpl.
        split; [lia|]. right. exists k'. split; [assumption|lia].
Qed.

Lemma for_each_spin_ends (op : nat -> M bool) k :
  (forall a, asks_once (op a)) -> 2 <= k ->
  forall m fuel w,
    length m + 1 <= k ->
    ends_true k (w_env w) -> length (w_env w) < fuel ->
    exists w',
      for_each m (fun it => spin fuel (op it)) w = (Ok tt, w')
      /\ length (w_env w') <= length (w_env w)
      /\ trues_left (length m + 1) k (w_env w').
Proof.
  intros Hop Hk. induction m as [|[nm a] m IH]; intros fuel w Hm Hends Hfuel.
  - exists w. split; [reflexivity|]. split; [lia|now left].
  - simpl in Hm. cbn [for_each].
    destruct (spin_ends (op a) k (Hop a) Hk fuel w Hends Hfuel)
      as (w1 & Hs & Hlen & [Hends1|(k' & Henv1 & Hk')]).
    + destruct (IH fuel w1) as (w' & Hf & Hlen' & Hleft); [lia|assumption|lia|].
      exists w'. rewrite (bindM_Ok _ _ _ _ _ Hs). split; [assumption|].
      split; [lia|]. eapply trues_left_weaken; [|exact Hleft]. simpl. lia.
    + destruct fuel as [|fuel]; [lia|].
      destruct (for_each_spin_pure op fuel m w1 k' Henv1) as (w' & Hf & Henv');
        [lia|].
      exists w'. rewrite (bindM_Ok _ _ _ _ _ Hs). split; [assumption|].
      rewrite Henv'. split.
      * rewrite repeat_length. rewrite Henv1, repeat_length in Hlen. lia.
      * right. exists (k' - length m). split; [reflexivity|]. simpl. lia.
Qed.

Lemma pop_asks_once a tid : asks_once (pop a tid).
Proof. apply (asks_once_ask_emit (EvPop a tid)). Qed.

Lemma push_asks_once a tid : asks_once (push a tid).
Proof. apply (asks_once_ask_emit (EvPush a tid)). Qed.

(** A pass ends when the flag is raised for good: in a [break], or in a
    further round of the loop with only trues left to read. *)
Lemma iteration_ends this tid t k fuel w :
  tasks this !! N.to_nat tid = Some t ->
  length (buffered_sockets_in this) + 2 <= k ->
  length (buffered_sockets_out this) + 2 <= k ->
  ends_true k (w_env w) -> length (w_env w) < fuel ->
  exists f w',
    iteration fuel this tid w = (Ok f, w')
    /\ length (w_env w') < length (w_env w)
    /\ (f = Break
        \/ (f = Continue
            /\ trues_left (length (buffered_sockets_out this) + 1) k (w_env w'))).
Proof.
  intros Ht Hin Hout Hends Hfuel. unfold iteration.
  destruct (for_each_spin_ends (fun it => pop it tid) k
              (fun a => pop_asks_once a tid) ltac:(lia)
              (buffered_sockets_in this) fuel w ltac:(lia) Hends Hfuel)
    as (w1 & Hpops & Hlen1 & Hleft1).
  rewrite (bindM_Ok _ _ _ _ _ Hpops).
  assert (Hcons : exists b e, w_env w1 = b :: e
                              /\ (b = false -> ends_true k e)).
  { destruct Hleft1 as [Hends1|(k' & Henv1 & Hk')].
    - destruct (ends_true_cons k _ ltac:(lia) Hends1) as (b & e & Henv1).
      exists b, e. split; [assumption|]. intros Hb. rewrite Henv1 in Hends1.
      now apply (ends_true_false _ _ _ Hends1).
    - destruct k' as [|k']; [lia|]. exists true, (repeat true k').
      split; [assumption|discriminate]. }
  destruct Hcons as (b & e & Henv1 & Hb).
  destruct (is_done_asks_once w1 b e Henv1) as (w2 & Hd & Henv2).
  rewrite (bindM_Ok _ _ _ _ _ Hd). rewrite Henv1 in Hlen1. simpl in Hlen1.
  destruct b.
  - exists Break, w2. split; [reflexivity|]. rewrite Henv2. split; [lia|now left].
  - unfold at_index. rewrite Ht.
    rewrite (bindM_Ok _ _ w2 t w2) by reflexivity.
    erewrite (bindM_Ok _ _ w2 tt); [|reflexivity].
    match goal with
    | |- context [bindM (for_each _ _) _ ?v] => set (w3 := v)
    end.
    assert (Henv3 : w_env w3 = e) by exact Henv2.
    destruct (for_each_spin_ends (fun it => push it tid) k
                (fun a => push_asks_once a tid) ltac:(lia)
                (buffered_sockets_out this) fuel w3 ltac:(lia))
      as (w4 & Hpushes & Hlen4 & Hleft4).
    { rewrite Henv3. now apply Hb. }
    { rewrite Henv3. lia. }
    exists Continue, w4. rewrite (bindM_Ok _ _ _ _ _ Hpushes).
    split; [reflexivity|]. rewrite Henv3 in Hlen4. split; [lia|].
    right. split; [reflexivity|assumption].
Qed.

Lemma main_loop_ends this tid t k :
  tasks this !! N.to_nat tid = Some t ->
  length (buffered_sockets_in this) + 2 <= k ->
  length (buffered_sockets_out this) + 2 <= k ->
  forall fuel w,
    length (w_env w) < fuel ->
    ends_true k (w_env w) \/ (exists k', w_env w = repeat true (Datatypes.S k')) ->
    exists w', main_loop fuel this tid w = (Ok tt, w').
Proof.
  intros Ht Hin Hout. induction fuel as [|fuel IH]; intros w Hfuel Hstate; [lia|].
  simpl.
  assert (Hcons : exists b e, w_env w = b :: e /\ (b = false -> ends_true k e)).
  { destruct Hstate as [Hends|(k' & Henv)].
    - destruct (ends_true_cons k _ ltac:(lia) Hends) as (b & e & Henv).
      exists b, e. split; [assumption|]. intros Hb. rewrite Henv in Hends.
      now apply (ends_true_false _ _ _ Hends).
    - exists true, (repeat true k'). split; [assumption|discriminate]. }
  destruct Hcons as (b & e & Henv & Hb).
  destruct (is_done_asks_once w b e Henv) as (w1 & Hd & Henv1).
  rewrite (bindM_Ok _ _ _ _ _ Hd). rewrite Henv in Hfuel. simpl in Hfuel.
  destruct b; [eexists; reflexivity|].
  destruct (iteration_ends this tid t k fuel w1 Ht Hin Hout)
    as (f & w2 & Hit & Hlen & Hf).
  { rewrite Henv1. now apply Hb. }
  { rewrite Henv1. lia. }
  rewrite (bindM_Ok _ _ _ _ _ Hit). rewrite Henv1 in Hlen.
  destruct Hf as [->|[-> Hleft]]; [eexists; reflexivity|].
  apply IH; [lia|].
  destruct Hleft as [Hends2|(k' & Henv2 & Hk')]; [now left|].
  right. destruct k' as [|k']; [lia|]. eauto.
Qed.

(** X16: once the stop flag is raised for good, a worker thread returns.
    Whatever answers it got before, if all that are left say "set" and there
    are a few of them (two more than the block has input channels, and than
    it has output channels), the thread ends its polling, leaves the loop and
    returns after the [stop] calls; it does not spin on. *)
Theorem execute_task_returns_once_raised (this : Block) (tid : N) (t : Task)
    (pre : list bool) (k fuel : nat) (w : World) :
  tasks this !! N.to_nat tid = Some t ->
  w_env w = pre ++ repeat true k ->
  length (buffered_sockets_in this) + 2 <= k ->
  length (buffered_sockets_out this) + 2 <= k ->
  length (w_env w) < fuel ->
  exists w', execute_task fuel this tid w = (Ok tt, w').
Proof.
  intros Ht Henv Hin Hout Hfuel. unfold execute_task.
  destruct (main_loop_ends this tid t k Ht Hin Hout fuel w Hfuel) as (w1 & Hloop).
  { left. now exists pre. }
  rewrite (bindM_Ok _ _ _ _ _ Hloop), stop_all_run. eauto.
Qed.

Lemma execute_task_returns_once_raised_witness :
  exists w',
    execute_task 8 ex_enc_block 0
      (mkWorld 0 ∅ ∅ [] [false; false; true; false; true; true; true]) = (Ok tt, w').
Proof.
  apply (execute_task_returns_once_raised ex_enc_block 0
           (clone_of (prototype ex_encoder 10) 11)
           [false; false; true; false] 3 8
           (mkWorld 0 ∅ ∅ [] [false; false; true; false; true; true; true])).
  - reflexivity.
  - reflexivity.
  - simpl. lia.
  - simpl. lia.
  - simpl. lia.
Defined.
